(** * The Nix store core: path-naming algebra, content addresses,
      derivation hashing and path-info signatures

    A shallow embedding of
      - src/libstore/store-api.cc    (store paths, fingerprints, copyPaths),
      - src/libstore/derivations.cc  (derivation type, unparse, hash modulo),
      - content-address.hh / content-address.cc (content addresses,
        PathReferences),
    followed by the properties of the design document that concern them.

    C++ exceptions, failed assertions and undefined behaviour are made
    explicit in a [result] type; std::set and std::map are kept as their
    in-order element lists, because the code prints them in iteration
    order. *)

From Stdlib Require Import ZArith NArith List Bool Ascii String Lia.
From Stdlib Require Import Init.Byte Strings.Byte DecimalString Sorting.Sorted.
Import ListNotations.

Local Open Scope list_scope.
Local Open Scope string_scope.

(* ================================================================== *)
(** * Results of fallible code *)
(* ================================================================== *)

(** The ways a C++ call can end without returning a value. *)
Inductive failure : Type :=
| Error (msg : string)            (* throw Error(...) *)
| InvalidPath (msg : string)      (* throw InvalidPath(...) *)
| BadHash (msg : string)          (* throw BadHash(...) from the Hash parser *)
| BadStorePath (msg : string)     (* throw BadStorePath(...) from the path parser *)
| OutOfRange (msg : string)       (* std::out_of_range from map::at *)
| AssertionFailed (cond : string) (* assert(cond) does not hold: abort() *)
| Undefined (what : string)       (* undefined behaviour: *nullopt, begin() of an empty map *)
| Diverges.                       (* the recursion did not finish within the given fuel *)

(** [catch (Error & e)] catches [Error] and the classes derived from it. *)
Definition isNixError (e : failure) : bool :=
  match e with
  | Error _ | InvalidPath _ | BadHash _ | BadStorePath _ => true
  | OutOfRange _ | AssertionFailed _ | Undefined _ | Diverges => false
  end.

Inductive result (A : Type) : Type :=
| ok (a : A)
| fail (e : failure).
Arguments ok {A} a.
Arguments fail {A} e.

Definition bind {A B : Type} (r : result A) (k : A -> result B) : result B :=
  match r with
  | ok a => k a
  | fail e => fail e
  end.

Notation "x <- c ;; k" := (bind c (fun x => k))
  (at level 61, c at next level, right associativity).
Notation "c ;;; k" := (bind c (fun _ => k))
  (at level 61, right associativity).

(** [assert(cond)] *)
Definition assert (cond : bool) (what : string) : result unit :=
  if cond then ok tt else fail (AssertionFailed what).

(** [*opt] on a [std::optional] *)
Definition deref {A : Type} (o : option A) (what : string) : result A :=
  match o with
  | Some a => ok a
  | None => fail (Undefined what)
  end.

Definition is_ok {A : Type} (r : result A) : bool :=
  match r with ok _ => true | fail _ => false end.

Definition isSome {A : Type} (o : option A) : bool :=
  match o with Some _ => true | None => false end.

Definition isEmpty {A : Type} (l : list A) : bool :=
  match l with [] => true | _ :: _ => false end.

Fixpoint string_forall (f : ascii -> bool) (s : string) : bool :=
  match s with
  | EmptyString => true
  | String c s' => f c && string_forall f s'
  end.

(* ================================================================== *)
(** * Ordered containers: std::set and std::map as in-order lists *)
(* ================================================================== *)

(** A key type with the three-way comparison behind [operator <]. *)
Class Ord (K : Type) : Type := {
  cmp : K -> K -> comparison;
  cmp_eq : forall a b, cmp a b = Eq <-> a = b
}.

Lemma string_compare_refl (s : string) : String.compare s s = Eq.
Proof.
  induction s as [|c s IH]; simpl; [reflexivity|].
  unfold Ascii.compare. rewrite N.compare_refl. exact IH.
Qed.

Lemma string_compare_eq (a b : string) : String.compare a b = Eq <-> a = b.
Proof.
  split; [apply String.compare_eq_iff|].
  intros ->. apply string_compare_refl.
Qed.

#[export] Instance Ord_string : Ord string := {
  cmp := String.compare;
  cmp_eq := string_compare_eq
}.

Definition keq {K : Type} `{Ord K} (a b : K) : bool :=
  match cmp a b with Eq => true | _ => false end.

Section Containers.
Context {K : Type} `{Ord K}.

(** [std::set<K>::insert] *)
Fixpoint set_insert (x : K) (s : list K) : list K :=
  match s with
  | [] => [x]
  | y :: s' =>
      match cmp x y with
      | Lt => x :: s
      | Eq => s
      | Gt => y :: set_insert x s'
      end
  end.

(** [std::set<K>::count] *)
Fixpoint set_count (x : K) (s : list K) : bool :=
  match s with
  | [] => false
  | y :: s' => keq x y || set_count x s'
  end.

(** [std::set<K>::erase] *)
Fixpoint set_erase (x : K) (s : list K) : list K :=
  match s with
  | [] => []
  | y :: s' => if keq x y then set_erase x s' else y :: set_erase x s'
  end.

(** A set built by inserting the elements of a range one by one. *)
Definition set_of_list (l : list K) : list K :=
  fold_left (fun s x => set_insert x s) l [].

Context {V : Type}.

(** [std::map<K,V>::insert_or_assign] *)
Fixpoint map_insert_or_assign (k : K) (v : V) (m : list (K * V)) : list (K * V) :=
  match m with
  | [] => [(k, v)]
  | (k', v') :: m' =>
      match cmp k k' with
      | Lt => (k, v) :: m
      | Eq => (k, v) :: m'
      | Gt => (k', v') :: map_insert_or_assign k v m'
      end
  end.

(** [std::map<K,V>::find] *)
Fixpoint map_find (k : K) (m : list (K * V)) : option V :=
  match m with
  | [] => None
  | (k', v') :: m' => if keq k k' then Some v' else map_find k m'
  end.

(** [std::map<K,V>::count] *)
Definition map_count (k : K) (m : list (K * V)) : bool := isSome (map_find k m).
End Containers.

(** [concatStringsSep(sep, ss)] *)
Definition concatStringsSep (sep : string) (ss : list string) : string :=
  String.concat sep ss.

(** [std::string(s, pos)] and [s.substr(pos)]: the suffix from [pos] on. *)
Fixpoint string_drop (n : nat) (s : string) : string :=
  match n, s with
  | O, _ => s
  | S n', String _ s' => string_drop n' s'
  | S _, EmptyString => EmptyString
  end.

(** [std::string(s, 0, n)] and [s.substr(0, n)]: at most [n] leading characters. *)
Fixpoint string_take (n : nat) (s : string) : string :=
  match n, s with
  | O, _ => EmptyString
  | S n', String c s' => String c (string_take n' s')
  | S _, EmptyString => EmptyString
  end.

(** [s.find(c)]: the position of the first occurrence of a character. *)
Fixpoint string_find (c : ascii) (s : string) : option nat :=
  match s with
  | EmptyString => None
  | String d s' =>
      if Ascii.eqb c d then Some O
      else match string_find c s' with
           | Some n => Some (S n)
           | None => None
           end
  end.

(** [std::to_string] of an unsigned integer. *)
Definition decimal (n : N) : string := NilEmpty.string_of_uint (N.to_uint n).

(* ================================================================== *)
(** * Hashes *)
(* ================================================================== *)

(** ** SHA-256
    Modelled from the spec: [hashString] of hash.cc is not among the
    sources; the algorithm is the SHA-256 of FIPS 180-4 that the spec
    names.  Words are 32-bit unsigned integers kept in [Z], every addition
    and left shift reduced modulo 2^32. *)
Module SHA256.
Local Open Scope Z_scope.

Definition wrap (x : Z) : Z := x mod 2 ^ 32.
Definition add32 (x y : Z) : Z := wrap (x + y).
Definition rotr (n x : Z) : Z := Z.lor (Z.shiftr x n) (wrap (Z.shiftl x (32 - n))).
Definition shr (n x : Z) : Z := Z.shiftr x n.
Definition not32 (x : Z) : Z := Z.lxor x (2 ^ 32 - 1).

Definition Ch (x y z : Z) : Z := Z.lxor (Z.land x y) (Z.land (not32 x) z).
Definition Maj (x y z : Z) : Z :=
  Z.lxor (Z.lxor (Z.land x y) (Z.land x z)) (Z.land y z).
Definition bigsigma0 (x : Z) : Z := Z.lxor (Z.lxor (rotr 2 x) (rotr 13 x)) (rotr 22 x).
Definition bigsigma1 (x : Z) : Z := Z.lxor (Z.lxor (rotr 6 x) (rotr 11 x)) (rotr 25 x).
Definition smallsigma0 (x : Z) : Z := Z.lxor (Z.lxor (rotr 7 x) (rotr 18 x)) (shr 3 x).
Definition smallsigma1 (x : Z) : Z := Z.lxor (Z.lxor (rotr 17 x) (rotr 19 x)) (shr 10 x).

Definition hexval (c : ascii) : Z :=
  let n := Z.of_N (N_of_ascii c) in
  if (48 <=? n) && (n <=? 57) then n - 48
  else if (97 <=? n) && (n <=? 102) then n - 87
  else 0.

(** Big-endian 32-bit words written as eight hexadecimal digits each. *)
Fixpoint words_of_hex (s : string) : list Z :=
  match s with
  | String a (String b (String c (String d
      (String e (String f (String g (String h rest))))))) =>
      fold_left (fun acc x => acc * 16 + hexval x) [a; b; c; d; e; f; g; h] 0
        :: words_of_hex rest
  | _ => []
  end.

(** The round constants: fractional parts of the cube roots of the
    first 64 primes. *)
Definition K : list Z := Eval vm_compute in words_of_hex
  ("428a2f9871374491b5c0fbcfe9b5dba53956c25b59f111f1923f82a4ab1c5ed5" ++
   "d807aa9812835b01243185be550c7dc372be5d7480deb1fe9bdc06a7c19bf174" ++
   "e49b69c1efbe47860fc19dc6240ca1cc2de92c6f4a7484aa5cb0a9dc76f988da" ++
   "983e5152a831c66db00327c8bf597fc7c6e00bf3d5a7914706ca635114292967" ++
   "27b70a852e1b21384d2c6dfc53380d13650a7354766a0abb81c2c92e92722c85" ++
   "a2bfe8a1a81a664bc24b8b70c76c51a3d192e819d6990624f40e3585106aa070" ++
   "19a4c1161e376c082748774c34b0bcb5391c0cb34ed8aa4a5b9cca4f682e6ff3" ++
   "748f82ee78a5636f84c878148cc7020890befffaa4506cebbef9a3f7c67178f2").

(** The initial state: fractional parts of the square roots of the
    first 8 primes. *)
Definition H0 : list Z := Eval vm_compute in words_of_hex
  "6a09e667bb67ae853c6ef372a54ff53a510e527f9b05688c1f83d9ab5be0cd19".

(** Padding: the bit 1, zero bits up to 56 modulo 64 bytes, then the
    message length in bits as a 64-bit big-endian integer. *)
Fixpoint be_bytes (n : nat) (x : Z) : list Z :=
  match n with
  | O => []
  | S n' => (Z.shiftr x (8 * Z.of_nat n')) mod 256 :: be_bytes n' x
  end.

Definition pad (msg : list Z) : list Z :=
  let len := Z.of_nat (List.length msg) in
  let zeros := Z.to_nat ((55 - len) mod 64) in
  (msg ++ 128 :: repeat 0 zeros ++ be_bytes 8 (8 * len))%list.

Fixpoint be_words (n : nat) (bs : list Z) : list Z :=
  match n, bs with
  | S n', a :: b :: c :: d :: rest =>
      (((a * 256 + b) * 256 + c) * 256 + d) :: be_words n' rest
  | _, _ => []
  end.

(** The message schedule, most recent word first. *)
Fixpoint extend (n : nat) (ws : list Z) : list Z :=
  match n with
  | O => ws
  | S n' =>
      let w := add32 (add32 (smallsigma1 (nth 1 ws 0)) (nth 6 ws 0))
                     (add32 (smallsigma0 (nth 14 ws 0)) (nth 15 ws 0)) in
      extend n' (w :: ws)
  end.

Definition schedule (block : list Z) : list Z :=
  rev (extend 48 (rev (be_words 16 block))).

Record regs : Type := Regs { ra : Z; rb : Z; rc : Z; rd : Z; re : Z; rf : Z; rg : Z; rh : Z }.

Definition round (s : regs) (kw : Z * Z) : regs :=
  let t1 := add32 (add32 (add32 (rh s) (bigsigma1 (re s)))
                         (add32 (Ch (re s) (rf s) (rg s)) (fst kw))) (snd kw) in
  let t2 := add32 (bigsigma0 (ra s)) (Maj (ra s) (rb s) (rc s)) in
  Regs (add32 t1 t2) (ra s) (rb s) (rc s) (add32 (rd s) t1) (re s) (rf s) (rg s).

Definition regs_of (h : list Z) : regs :=
  Regs (nth 0 h 0) (nth 1 h 0) (nth 2 h 0) (nth 3 h 0)
       (nth 4 h 0) (nth 5 h 0) (nth 6 h 0) (nth 7 h 0).

Definition compress (h : list Z) (block : list Z) : list Z :=
  let s := fold_left round (combine K (schedule block)) (regs_of h) in
  map (fun p => add32 (fst p) (snd p))
      (combine h [ra s; rb s; rc s; rd s; re s; rf s; rg s; rh s]).

Fixpoint blocks (n : nat) (h : list Z) (bs : list Z) : list Z :=
  match n with
  | O => h
  | S n' =>
      match bs with
      | [] => h
      | _ => blocks n' (compress h (firstn 64 bs)) (skipn 64 bs)
      end
  end.

Definition digest_Z (msg : list Z) : list Z :=
  let p := pad msg in
  flat_map (be_bytes 4) (blocks (List.length p) H0 p).

Definition byte_of_Z (z : Z) : byte :=
  match Byte.of_N (Z.to_N (z mod 256)) with
  | Some b => b
  | None => x00
  end.

Definition Z_of_byte (b : byte) : Z := Z.of_N (Byte.to_N b).

(** The 32-byte digest of a byte string. *)
Definition digest (s : string) : list byte :=
  map byte_of_Z (digest_Z (map Z_of_byte (list_byte_of_string s))).
End SHA256.

(** ** Hash values
    Modelled from the spec: hash.hh is not among the sources; the
    algorithms, their names and digest sizes are those of the spec's data
    model. *)

Inductive HashType : Type := htMD5 | htSHA1 | htSHA256 | htSHA512.

Definition HashType_eqb (a b : HashType) : bool :=
  match a, b with
  | htMD5, htMD5 | htSHA1, htSHA1 | htSHA256, htSHA256 | htSHA512, htSHA512 => true
  | _, _ => false
  end.

Lemma HashType_eqb_eq (a b : HashType) : HashType_eqb a b = true <-> a = b.
Proof. destruct a, b; simpl; split; intro E; try reflexivity; discriminate E. Qed.

(** The digest size of each algorithm, in bytes. *)
Definition hashSizeOf (ht : HashType) : nat :=
  match ht with
  | htMD5 => 16
  | htSHA1 => 20
  | htSHA256 => 32
  | htSHA512 => 64
  end.

(** [struct Hash]: an algorithm tag and the digest bytes;
    [hashSize] is the length of the digest. *)
Record Hash : Type := mkHash {
  type : HashType;
  hash : list byte
}.

Definition hashSize (h : Hash) : nat := List.length (hash h).

(** The data-model invariant of a hash: the digest has the native size of
    its algorithm. *)
Definition Hash_wf (h : Hash) : bool := Nat.eqb (hashSize h) (hashSizeOf (type h)).

(** Modelled from the spec: [printHashType] of hash.cc. *)
Definition printHashType (ht : HashType) : string :=
  match ht with
  | htMD5 => "md5"
  | htSHA1 => "sha1"
  | htSHA256 => "sha256"
  | htSHA512 => "sha512"
  end.

(** Modelled from the spec: [parseHashType] of hash.cc, with [None] for an
    unknown name. *)
Definition parseHashType (s : string) : option HashType :=
  if String.eqb s "md5" then Some htMD5
  else if String.eqb s "sha1" then Some htSHA1
  else if String.eqb s "sha256" then Some htSHA256
  else if String.eqb s "sha512" then Some htSHA512
  else None.

(** Modelled from the spec: [hashString(htSHA256, s)] of hash.cc.  The
    sources under study call [hashString] with no other algorithm. *)
Definition hashString_SHA256 (s : string) : Hash := mkHash htSHA256 (SHA256.digest s).


(** The two digest encodings these sources ask for. *)
Inductive Base : Type := Base32 | Base16.

Definition nth_char (alphabet : string) (n : N) : ascii :=
  match String.get (N.to_nat n) alphabet with
  | Some c => c
  | None => "0"%char
  end.

Definition base16Chars : string := "0123456789abcdef".

(** Modelled from the spec: hash.cc is not among the sources; the
    base-16 rendering writes each digest byte as two lowercase
    hexadecimal digits, high nibble first. *)
Fixpoint printHash16_bytes (bs : list byte) : string :=
  match bs with
  | [] => ""
  | b :: bs' =>
      String (nth_char base16Chars (Byte.to_N b / 16))
        (String (nth_char base16Chars (Byte.to_N b mod 16)) (printHash16_bytes bs'))
  end.

Definition printHash16 (h : Hash) : string := printHash16_bytes (hash h).

Definition base32Chars : string := "0123456789abcdfghijklmnpqrsvwxyz".

(** The number of base-32 characters of a digest of [size] bytes. *)
Definition base32Len (size : nat) : nat := (size * 8 - 1) / 5 + 1.

Definition byte_at (bs : list byte) (i : nat) : N :=
  match nth_error bs i with
  | Some b => Byte.to_N b
  | None => 0%N
  end.

(** Modelled from the spec: hash.cc is not among the sources; section 4.1
    step 3 encodes the digest, read as one integer (byte 0 the least
    significant), five bits per character from the high bits to the low
    ones, in the alphabet [base32Chars]. *)
Definition printHash32_char (bs : list byte) (n : nat) : ascii :=
  let b := (n * 5)%nat in
  let i := (b / 8)%nat in
  let j := N.of_nat (b mod 8) in
  let lo := N.shiftr (byte_at bs i) j in
  let hi := if Nat.leb (List.length bs - 1) i then 0%N
            else (N.shiftl (byte_at bs (S i)) (8 - j) mod 256)%N in
  nth_char base32Chars (N.land (N.lor lo hi) 31).

Definition printHash32_bytes (bs : list byte) : string :=
  string_of_list_ascii
    (map (printHash32_char bs) (rev (seq 0 (base32Len (List.length bs))))).

Definition printHash32 (h : Hash) : string := printHash32_bytes (hash h).

(** Modelled from the spec: [Hash::to_string(base, includeType)] of hash.cc,
    which is not among the sources; section 3: the textual rendering
    carries the algorithm as a prefix, [sha256:...], when asked to. *)
Definition to_string (base : Base) (includeType : bool) (h : Hash) : string :=
  (if includeType then printHashType (type h) ++ ":" else "")
  ++ match base with
     | Base16 => printHash16 h
     | Base32 => printHash32 h
     end.

(** Modelled from the spec: [compressHash(hash, newSize)] of hash.cc, which
    is not among the sources; section 4.1 step 2: output byte [i] is the
    exclusive or of the input bytes at the positions congruent to [i]
    modulo [newSize]. *)
Definition compressHash (h : Hash) (newSize : nat) : Hash :=
  let folded (i : nat) : N :=
    fold_left
      (fun acc jb => if Nat.eqb (fst jb mod newSize) i
                     then N.lxor acc (Byte.to_N (snd jb)) else acc)
      (combine (seq 0 (hashSize h)) (hash h)) 0%N in
  mkHash (type h)
    (map (fun i => SHA256.byte_of_Z (Z.of_N (folded i))) (seq 0 newSize)).

(** One hexadecimal digit, either case. *)
Definition parseBase16Digit (c : ascii) : option N :=
  let n := N_of_ascii c in
  if (48 <=? n)%N && (n <=? 57)%N then Some (n - 48)%N
  else if (65 <=? n)%N && (n <=? 70)%N then Some (n - 55)%N
  else if (97 <=? n)%N && (n <=? 102)%N then Some (n - 87)%N
  else None.

Fixpoint parseBase16 (s : string) : option (list byte) :=
  match s with
  | EmptyString => Some []
  | String c1 (String c2 rest) =>
      match parseBase16Digit c1, parseBase16Digit c2, parseBase16 rest with
      | Some hi, Some lo, Some bs =>
          match Byte.of_N (hi * 16 + lo) with
          | Some b => Some (b :: bs)
          | None => None
          end
      | _, _, _ => None
      end
  | String _ EmptyString => None
  end.

(** Modelled from the spec: the constructor [Hash(std::string)] of hash.cc,
    which is not among the sources.  It reads back the typed rendering
    [<algorithm>:<digest>]: the text before the first colon names the
    algorithm, the rest is the digest in base 16 and must have the native
    size of the algorithm. *)
Definition parseHash (s : string) : result Hash :=
  match string_find ":" s with
  | None => fail (BadHash "hash does not include a type")
  | Some n =>
      match parseHashType (string_take n s) with
      | None => fail (BadHash "unknown hash type")
      | Some ht =>
          let rest := string_drop (S n) s in
          if Nat.eqb (String.length rest) (2 * hashSizeOf ht) then
            match parseBase16 rest with
            | Some bs => ok (mkHash ht bs)
            | None => fail (BadHash "invalid base-16 hash")
            end
          else fail (BadHash "hash has wrong length for its type")
      end
  end.

(* ================================================================== *)
(** * Data model *)
(* ================================================================== *)

(** ** Store paths (path.hh) *)

(** A store path is its base name [<hashPart>-<name>]; the store
    directory is added when it is printed. *)
Record StorePath : Type := mkStorePath { baseName : string }.

Definition StorePath_eqb (a b : StorePath) : bool :=
  String.eqb (baseName a) (baseName b).

Lemma StorePath_eqb_eq (a b : StorePath) : StorePath_eqb a b = true <-> a = b.
Proof.
  destruct a as [x], b as [y]; unfold StorePath_eqb; simpl.
  rewrite String.eqb_eq. split; [intros ->; reflexivity | intros [= ->]; reflexivity].
Qed.

Lemma StorePath_compare_eq (a b : StorePath) :
  String.compare (baseName a) (baseName b) = Eq <-> a = b.
Proof.
  destruct a as [x], b as [y]; simpl. rewrite string_compare_eq.
  split; [intros ->; reflexivity | intros [= ->]; reflexivity].
Qed.

(** [StorePath::operator <] compares the base names. *)
#[export] Instance Ord_StorePath : Ord StorePath := {
  cmp := fun a b => String.compare (baseName a) (baseName b);
  cmp_eq := StorePath_compare_eq
}.

(** Modelled from the spec: the constructor [StorePath(hash, name)] of
    path.cc, which is not among the sources; section 4.1 steps 3 and 4:
    the base name is the digest in base 32, a dash and the name. *)
Definition StorePath_of_hash (h : Hash) (name : string) : StorePath :=
  mkStorePath (to_string Base32 false h ++ "-" ++ name).

(** Modelled from the spec: [hashPart()] and [name()] of path.hh, which is
    not among the sources: the 32 characters before the dash and the text
    after it. *)
Definition hashPart (p : StorePath) : string := string_take 32 (baseName p).
Definition StorePath_name (p : StorePath) : string := string_drop 33 (baseName p).

(** ** Content addresses (content-address.hh) *)

Inductive FileIngestionMethod : Type := Flat | Recursive | Git.

Definition FileIngestionMethod_eqb (a b : FileIngestionMethod) : bool :=
  match a, b with
  | Flat, Flat | Recursive, Recursive | Git, Git => true
  | _, _ => false
  end.

(** The mini content address kept in the [ca] field of a path info:
    [std::variant<TextHash, FixedOutputHash, IPFSHash>].  The revision of
    content-address.cc among the sources still calls the second
    alternative [FileSystemHash]. *)
Inductive MiniContentAddress : Type :=
| TextHash (h : Hash)
| FixedOutputHash (method : FileIngestionMethod) (h : Hash)
| IPFSHash (h : Hash).

(** [PathReferences<Ref>]: a set of references and a flag for the
    reference of a path to itself. *)
Record PathReferences (Ref : Type) : Type := mkPathReferences {
  references : list Ref;
  hasSelfReference : bool
}.
Arguments mkPathReferences {Ref} references hasSelfReference.
Arguments references {Ref} p.
Arguments hasSelfReference {Ref} p.

Record TextInfo : Type := mkTextInfo {
  ti_hash : Hash;
  ti_references : list StorePath
}.

Record FixedOutputInfo : Type := mkFixedOutputInfo {
  foi_method : FileIngestionMethod;
  foi_hash : Hash;
  foi_references : PathReferences StorePath
}.

Record IPFSRef : Type := mkIPFSRef {
  ref_name : string;
  ref_hash : Hash
}.

Record IPFSInfo : Type := mkIPFSInfo {
  ii_hash : Hash;
  ii_references : PathReferences IPFSRef
}.

(** [std::variant<TextInfo, FixedOutputInfo, IPFSInfo, IPFSHash>] *)
Inductive ContentAddressWithReferences : Type :=
| caTextInfo (ti : TextInfo)
| caFixedOutputInfo (foi : FixedOutputInfo)
| caIPFSInfo (ii : IPFSInfo)
| caIPFSHash (h : Hash).

(** The full content address of store-api.cc: a name and the content
    address with its references. *)
Record ContentAddress : Type := mkContentAddress {
  name : string;
  info : ContentAddressWithReferences
}.

(** ** Path infos (store-api.hh) *)

(** [struct ValidPathInfo : PathReferences<StorePath>]; the base class is
    the field [refs]. *)
Record ValidPathInfo : Type := mkValidPathInfo {
  path : StorePath;
  deriver : option StorePath;
  narHash : option Hash;
  refs : PathReferences StorePath;
  registrationTime : Z;
  narSize : N;
  ultimate : bool;
  sigs : list string;
  ca : option MiniContentAddress
}.

(** ** Derivations (derivations.hh) *)

Record DerivationOutput : Type := mkDerivationOutput {
  out_path : option StorePath;
  hashAlgo : string;
  out_hash : string
}.

Record Derivation : Type := mkDerivation {
  outputs : list (string * DerivationOutput);
  inputDrvs : list (StorePath * list string);
  inputSrcs : list StorePath;
  platform : string;
  builder : string;
  args : list string;
  env : list (string * string)
}.

Inductive DerivationType : Type := Regular | CAFixed | CAFloating.

(** [DrvHashModulo]: [std::variant<Hash, std::map<std::string, Hash>>] *)
Inductive DrvHashModulo : Type :=
| DrvHash (h : Hash)
| CaOutputHashes (m : list (string * Hash)).

(** [DrvHashes]: the process-wide memo table [drvHashes]. *)
Definition DrvHashes : Type := list (StorePath * DrvHashModulo).

(** ** Stores *)

(** What the code below reads from a store: its directory, the path infos
    its backend answers with ([queryPathInfoUncached]) and the derivations
    that [readDerivation] parses from its [.drv] files. *)
Record Store : Type := mkStore {
  storeDir : string;
  pathInfos : list (StorePath * ValidPathInfo);
  drvFiles : list (StorePath * Derivation)
}.

(** Modelled from the spec: [Store::printStorePath] of path.cc, which is
    not among the sources: the store directory, a slash and the base
    name. *)
Definition printStorePath (store : Store) (p : StorePath) : string :=
  storeDir store ++ "/" ++ baseName p.

(** Modelled from the spec: [Store::printStorePathSet] of path.cc: a
    [PathSet] filled by insertion. *)
Definition printStorePathSet (store : Store) (ps : list StorePath) : list string :=
  set_of_list (map (printStorePath store) ps).

(* ================================================================== *)
(** * content-address.hh: PathReferences *)
(* ================================================================== *)

Section PathReferencesOps.
Context {Ref : Type} `{Ord Ref}.

(** [PathReferences<Ref>::referencesPossiblyToSelf] *)
Definition referencesPossiblyToSelf (this : PathReferences Ref) (self : Ref) : list Ref :=
  let refs := references this in
  if hasSelfReference this then set_insert self refs else refs.

(** [PathReferences<Ref>::insertReferencePossiblyToSelf] *)
Definition insertReferencePossiblyToSelf (this : PathReferences Ref) (self ref : Ref)
  : PathReferences Ref :=
  if keq ref self
  then mkPathReferences (references this) true
  else mkPathReferences (set_insert ref (references this)) (hasSelfReference this).

(** [PathReferences<Ref>::setReferencesPossiblyToSelf].  Only the
    assignment to [hasSelfReference] is under the [if]; [refs.erase(self)]
    runs in both cases. *)
Definition setReferencesPossiblyToSelf (this : PathReferences Ref) (self : Ref)
    (refs : list Ref) : PathReferences Ref :=
  let flag := if set_count self refs then true else hasSelfReference this in
  let refs := set_erase self refs in
  mkPathReferences refs flag.
End PathReferencesOps.

(* ================================================================== *)
(** * content-address.cc: the textual form of content addresses *)
(* ================================================================== *)

(** [makeFileIngestionPrefix] *)
Definition makeFileIngestionPrefix (m : FileIngestionMethod) : string :=
  match m with
  | Flat => ""
  | Recursive => "r:"
  | Git => "git:"
  end.

(** Modelled from the spec: the default arguments of [Hash::to_string()] are
    declared in hash.hh, which is not among the sources; section 4.2 writes
    the hash of a content address with its algorithm prefix and the digest
    in hexadecimal. *)
Definition to_string_default (h : Hash) : string := to_string Base16 true h.

(** [makeFixedOutputCA] *)
Definition makeFixedOutputCA (method : FileIngestionMethod) (h : Hash) : string :=
  "fixed:" ++ makeFileIngestionPrefix method ++ to_string_default h.

(** Modelled from the spec: the rendering of the peer-network alternative.
    The visitor of [renderContentAddress] in content-address.cc has the two
    cases for text and fixed-output hashes only, although the header lists
    [IPFSHash] in the variant; section 4.2 gives ["ipfs:" + cid-form(h)] and
    section 4.1 the CID form ["f01711220" + hex(h)]. *)
Definition renderIPFSHash (h : Hash) : string :=
  "ipfs:" ++ "f01711220" ++ to_string Base16 false h.

(** [renderContentAddress(ContentAddress ca)] *)
Definition renderContentAddress (ca : MiniContentAddress) : string :=
  match ca with
  | TextHash h => "text:" ++ to_string_default h
  | FixedOutputHash method h => makeFixedOutputCA method h
  | IPFSHash h => renderIPFSHash h
  end.

(** [parseContentAddress] *)
Definition parseContentAddress (rawCa : string) : result MiniContentAddress :=
  match string_find ":" rawCa with
  | Some prefixSeparator =>
      let prefix := string_take prefixSeparator rawCa in
      if String.eqb prefix "text" then
        let hashTypeAndHash := string_drop (prefixSeparator + 1) rawCa in
        h <- parseHash hashTypeAndHash ;;
        if negb (HashType_eqb (type h) htSHA256)
        then fail (Error "parseContentAddress: the text hash should have type SHA256")
        else ok (TextHash h)
      else if String.eqb prefix "fixed" then
        let methodAndHash := string_drop (prefixSeparator + 1) rawCa in
        if String.eqb (string_take 2 methodAndHash) "r:" then
          h <- parseHash (string_drop 2 methodAndHash) ;;
          ok (FixedOutputHash Recursive h)
        else if String.eqb (string_take 4 methodAndHash) "git:" then
          h <- parseHash (string_drop 4 methodAndHash) ;;
          ok (FixedOutputHash Git h)
        else
          h <- parseHash methodAndHash ;;
          ok (FixedOutputHash Flat h)
      else
        fail (Error "parseContentAddress: format not recognized; has to be text or fixed")
  | None =>
      fail (Error "Not a content address because it lacks an appropriate prefix")
  end.

(** [parseContentAddressOpt] *)
Definition parseContentAddressOpt (rawCaOpt : string) : result (option MiniContentAddress) :=
  if String.eqb rawCaOpt "" then ok None
  else ca <- parseContentAddress rawCaOpt ;; ok (Some ca).

(** [renderContentAddress(std::optional<ContentAddress> ca)] *)
Definition renderContentAddressOpt (ca : option MiniContentAddress) : string :=
  match ca with
  | Some c => renderContentAddress c
  | None => ""
  end.

(* ================================================================== *)
(** * store-api.cc: the path-naming algebra *)
(* ================================================================== *)

(** [Store::makeStorePath] *)
Definition makeStorePath (store : Store) (type_ : string) (h : Hash) (name : string)
  : StorePath :=
  let s := type_ ++ ":" ++ to_string Base16 true h ++ ":" ++ storeDir store ++ ":" ++ name in
  let h := compressHash (hashString_SHA256 s) 20 in
  StorePath_of_hash h name.

(** [Store::makeOutputPath] *)
Definition makeOutputPath (store : Store) (id : string) (h : Hash) (name : string)
  : StorePath :=
  makeStorePath store ("output:" ++ id) h
    (name ++ (if String.eqb id "out" then "" else "-" ++ id)).

(** [makeType]: the references, then [:self], appended to the type. *)
Definition makeType (store : Store) (type_ : string) (refs_ : PathReferences StorePath)
  : string :=
  let type_ :=
    fold_left (fun t i => t ++ ":" ++ printStorePath store i) (references refs_) type_ in
  if hasSelfReference refs_ then type_ ++ ":self" else type_.

(** [Store::makeFixedOutputPath] *)
Definition makeFixedOutputPath (store : Store) (name : string) (info : FixedOutputInfo)
  : result StorePath :=
  if FileIngestionMethod_eqb (foi_method info) Git
     && negb (HashType_eqb (type (foi_hash info)) htSHA1)
  then fail (Error "Git file ingestion must use sha1 hash")
  else if HashType_eqb (type (foi_hash info)) htSHA256
          && FileIngestionMethod_eqb (foi_method info) Recursive
  then ok (makeStorePath store (makeType store "source" (foi_references info))
             (foi_hash info) name)
  else
    assert (Nat.eqb (List.length (references (foi_references info))) 0)
      "info.references.references.size() == 0" ;;;
    assert (negb (hasSelfReference (foi_references info)))
      "!info.references.hasSelfReference" ;;;
    ok (makeStorePath store "output:out"
          (hashString_SHA256
             ("fixed:out:"
              ++ makeFileIngestionPrefix (foi_method info)
              ++ to_string Base16 true (foi_hash info) ++ ":"))
          name).

(** [Store::makeTextPath] *)
Definition makeTextPath (store : Store) (name : string) (info : TextInfo)
  : result StorePath :=
  assert (HashType_eqb (type (ti_hash info)) htSHA256) "info.hash.type == htSHA256" ;;;
  ok (makeStorePath store
        (makeType store "text" (mkPathReferences (ti_references info) false))
        (ti_hash info) name).

(** [Store::makeIPFSPath] *)
Definition makeIPFSPath (store : Store) (name : string) (h : Hash) : result StorePath :=
  let type_ := "ipfs" in
  assert (HashType_eqb (type h) htSHA256) "hash.hash.type == htSHA256" ;;;
  let cid := "f01711220" ++ to_string Base16 false h in
  let s := type_ ++ ":" ++ cid ++ ":" ++ storeDir store ++ ":" ++ name in
  let h := compressHash (hashString_SHA256 s) 20 in
  ok (StorePath_of_hash h name).

(** Modelled from the spec: the validity check of a base name made by the
    constructor [StorePath(baseName)] of path.cc, which is not among the
    sources; section 3 and section 4.1: a hash part of exactly 32 characters
    of the base-32 alphabet, a dash, and a non-empty name of at most 211
    characters from [A-Za-z0-9+-._?=]. *)
Definition hashChar (c : ascii) : bool :=
  isSome (string_find c base32Chars).

Definition nameChar (c : ascii) : bool :=
  let n := N_of_ascii c in
  ((48 <=? n) && (n <=? 57) || (65 <=? n) && (n <=? 90) || (97 <=? n) && (n <=? 122))%N
  || isSome (string_find c "+-._?=").

Definition StorePath_valid (p : StorePath) : bool :=
  let b := baseName p in
  Nat.eqb (String.length (hashPart p)) 32
  && string_forall hashChar (hashPart p)
  && String.eqb (string_take 1 (string_drop 32 b)) "-"
  && negb (String.eqb (StorePath_name p) "")
  && Nat.leb (String.length (StorePath_name p)) 211
  && string_forall nameChar (StorePath_name p).

(** Modelled from the spec: [Store::parseStorePath] of path.cc, which is
    not among the sources; section 4.1: the inverse of step 4, the store
    directory and a slash followed by a valid base name. *)
Definition parseStorePath (store : Store) (s : string) : result StorePath :=
  let dir := storeDir store ++ "/" in
  if String.prefix dir s then
    let p := mkStorePath (string_drop (String.length dir) s) in
    if StorePath_valid p then ok p
    else fail (BadStorePath ("path '" ++ s ++ "' is not a valid store path"))
  else fail (BadStorePath ("path '" ++ s ++ "' is not in the Nix store")).

(** Modelled from the spec: [maxSigs] is declared in store-api.hh, which
    is not among the sources; it stands for the maximal signature count,
    taken here as the largest 64-bit [size_t].  No property below depends
    on its value. *)
Definition maxSigs : N := (2 ^ 64 - 1)%N.

(** [PublicKeys]: key name to public key. *)
Definition PublicKeys : Type := list (string * string).

(* ================================================================== *)
(** * store-api.cc: the valid-path registry *)
(* ================================================================== *)

(** [Store::queryPathInfo] on a store path.  The in-memory and the disk
    cache hold what the backend answered and are not modelled; an answer
    about another path counts as invalid. *)
Definition queryPathInfo (store : Store) (storePath : StorePath) : result ValidPathInfo :=
  match map_find storePath (pathInfos store) with
  | Some info_ =>
      if StorePath_eqb (path info_) storePath then ok info_
      else fail (InvalidPath ("path '" ++ printStorePath store storePath ++ "' is not valid"))
  | None => fail (InvalidPath ("path '" ++ printStorePath store storePath ++ "' is not valid"))
  end.

(** [Store::isValidPath] through [Store::isValidPathUncached]: only
    [InvalidPath] is caught. *)
Definition isValidPath (store : Store) (storePath : StorePath) : result bool :=
  match queryPathInfo store storePath with
  | ok _ => ok true
  | fail (InvalidPath _) => ok false
  | fail e => fail e
  end.

(** [Store::queryValidPaths]: [InvalidPath] is swallowed, any other
    failure is raised once all queries are done. *)
Definition queryValidPaths (store : Store) (paths : list StorePath) : result (list StorePath) :=
  fold_left
    (fun acc p =>
       match queryPathInfo store p with
       | ok _ => valid <- acc ;; ok (set_insert p valid)
       | fail (InvalidPath _) => acc
       | fail e => acc ;;; fail e
       end)
    paths (ok []).

(* ================================================================== *)
(** * derivations.cc *)
(* ================================================================== *)

(** The body of the loop of [BasicDerivation::type] over the outputs. *)
Definition checkOutput (algo : string) (i : string * DerivationOutput) : result unit :=
  if negb (String.eqb (out_hash (snd i)) "") then
    fail (Error "Non-fixed-output derivation has fixed output")
  else if negb (String.eqb (hashAlgo (snd i)) algo) then
    fail (Error "Invalid mix of CA and regular outputs")
  else if Bool.eqb (String.eqb algo "") (isSome (out_path (snd i))) then
    fail (Error "Path must be blank if and only if floating CA drv")
  else ok tt.

(** [BasicDerivation::type] *)
Definition Derivation_type (drv : Derivation) : result DerivationType :=
  match outputs drv with
  | [] => fail (Undefined "outputs.begin() of an empty map")
  | (id0, o0) :: _ =>
      if Nat.eqb (List.length (outputs drv)) 1
         && String.eqb id0 "out"
         && negb (String.eqb (out_hash o0) "")
         && negb (isSome (out_path o0))
      then ok CAFixed
      else
        let algo := hashAlgo o0 in
        let type_ := if String.eqb algo "" then Regular else CAFloating in
        fold_left (fun acc i => acc ;;; checkOutput algo i) (outputs drv) (ok tt) ;;;
        ok type_
  end.

(** The double-quote character. *)
Definition dquote : ascii := ascii_of_nat 34.

(** [printString]: a quoted string with the escapes of the derivation
    format. *)
Fixpoint escapeString (s : string) : string :=
  match s with
  | EmptyString => ""
  | String c s' =>
      let rest := escapeString s' in
      if Ascii.eqb c dquote || Ascii.eqb c "\" then String "\" (String c rest)
      else if Ascii.eqb c "010" then String "\" (String "n" rest)
      else if Ascii.eqb c "013" then String "\" (String "r" rest)
      else if Ascii.eqb c "009" then String "\" (String "t" rest)
      else String c rest
  end.

Definition quote : string := String dquote EmptyString.

Definition printString (s : string) : string := quote ++ escapeString s ++ quote.

(** [printUnquotedString] *)
Definition printUnquotedString (s : string) : string := quote ++ s ++ quote.

(** [printStrings] and [printUnquotedStrings]: a bracketed list, a comma
    before every element but the first. *)
Definition printStrings (l : list string) : string :=
  "[" ++ concatStringsSep "," (map printString l) ++ "]".

Definition printUnquotedStrings (l : list string) : string :=
  "[" ++ concatStringsSep "," (map printUnquotedString l) ++ "]".

(** The loops of [unparse] over a sequence of results: the first failure
    ends the call. *)
Fixpoint sequence {A : Type} (l : list (result A)) : result (list A) :=
  match l with
  | [] => ok []
  | r :: l' => a <- r ;; rest <- sequence l' ;; ok (a :: rest)
  end.

(** One output of [unparse].  In
    [i.second.path || maskOutputs ? "" : store.printStorePath( *i.second.path)]
    the condition is [(i.second.path || maskOutputs)]. *)
Definition unparseOutput (store : Store) (maskOutputs : bool)
    (i : string * DerivationOutput) : result string :=
  p <- (if isSome (out_path (snd i)) || maskOutputs then ok ""
        else p <- deref (out_path (snd i)) "*i.second.path" ;; ok (printStorePath store p)) ;;
  ok ("(" ++ printUnquotedString (fst i)
      ++ "," ++ printUnquotedString p
      ++ "," ++ printUnquotedString (hashAlgo (snd i))
      ++ "," ++ printUnquotedString (out_hash (snd i))
      ++ ")").

(** [Derivation::unparse] *)
Definition unparse (store : Store) (drv : Derivation) (maskOutputs : bool)
    (actualInputs : option (list (string * list string))) : result string :=
  outs <- sequence (map (unparseOutput store maskOutputs) (outputs drv)) ;;
  let ins :=
    match actualInputs with
    | Some inputs =>
        map (fun i : string * list string =>
               "(" ++ printUnquotedString (fst i)
               ++ "," ++ printUnquotedStrings (snd i) ++ ")") inputs
    | None =>
        map (fun i : StorePath * list string =>
               "(" ++ printUnquotedString (printStorePath store (fst i))
               ++ "," ++ printUnquotedStrings (snd i) ++ ")") (inputDrvs drv)
    end in
  let paths := printStorePathSet store (inputSrcs drv) in
  let envs :=
    map (fun i : string * string =>
           "(" ++ printString (fst i)
           ++ "," ++ printString (if maskOutputs && map_count (fst i) (outputs drv)
                                  then "" else snd i)
           ++ ")") (env drv) in
  ok ("Derive([" ++ concatStringsSep "," outs
      ++ "],[" ++ concatStringsSep "," ins
      ++ "]," ++ printUnquotedStrings paths
      ++ "," ++ printUnquotedString (platform drv)
      ++ "," ++ printString (builder drv)
      ++ "," ++ printStrings (args drv)
      ++ ",[" ++ concatStringsSep "," envs
      ++ "])").

(** [readDerivation(store, store.toRealPath(store.printStorePath(drvPath)))]:
    the derivation parsed from the file of a store path. *)
Definition readDerivation (store : Store) (drvPath : StorePath) : result Derivation :=
  match map_find drvPath (drvFiles store) with
  | Some drv => ok drv
  | None => fail (Error ("error parsing derivation '" ++ printStorePath store drvPath ++ "'"))
  end.

(** The fixed-output case of [hashDerivationModulo]: one hash per output.
    [store.printStorePath(i.second.path)] needs the path inside the
    optional. *)
Definition caFixedOutputHashes (store : Store) (drv : Derivation)
  : result (list (string * Hash)) :=
  fold_left
    (fun acc (i : string * DerivationOutput) =>
       outputHashes <- acc ;;
       p <- deref (out_path (snd i)) "i.second.path" ;;
       let h := hashString_SHA256
                  ("fixed:out:" ++ hashAlgo (snd i) ++ ":" ++ out_hash (snd i) ++ ":"
                   ++ printStorePath store p) in
       ok (map_insert_or_assign (fst i) h outputHashes))
    (outputs drv) (ok []).

(** The replacement of one input derivation in [inputs2], given its hash
    modulo. *)
Definition replaceInput (res : DrvHashModulo) (i : StorePath * list string)
    (inputs2 : list (string * list string)) : result (list (string * list string)) :=
  match res with
  | DrvHash h =>
      ok (map_insert_or_assign (to_string Base16 false h) (snd i) inputs2)
  | CaOutputHashes m =>
      let justOut := ["out"] in
      fold_left
        (fun acc output =>
           inputs2 <- acc ;;
           match map_find output m with
           | Some h => ok (map_insert_or_assign (to_string Base16 false h) justOut inputs2)
           | None => fail (OutOfRange "map::at")
           end)
        (snd i) (ok inputs2)
  end.

(** [hashDerivationModulo] and [pathDerivationModulo], mutually recursive
    through the derivations of the store: the recursion is bounded by
    [fuel], and the memo table [drvHashes] is passed in and out (it keeps
    what was inserted before a failure). *)
Fixpoint hashDerivationModulo (fuel : nat) (store : Store) (drv : Derivation)
    (maskOutputs : bool) (drvHashes : DrvHashes) {struct fuel}
  : result DrvHashModulo * DrvHashes :=
  match fuel with
  | O => (fail Diverges, drvHashes)
  | S fuel' =>
      let pathDerivationModulo (drvPath : StorePath) (drvHashes : DrvHashes)
        : result DrvHashModulo * DrvHashes :=
        match map_find drvPath drvHashes with
        | Some h => (ok h, drvHashes)
        | None =>
            match isValidPath store drvPath with
            | fail e => (fail e, drvHashes)
            | ok false => (fail (AssertionFailed "store.isValidPath(drvPath)"), drvHashes)
            | ok true =>
                match readDerivation store drvPath with
                | fail e => (fail e, drvHashes)
                | ok drv' =>
                    match hashDerivationModulo fuel' store drv' false drvHashes with
                    | (ok h, drvHashes') =>
                        (ok h, map_insert_or_assign drvPath h drvHashes')
                    | (fail e, drvHashes') => (fail e, drvHashes')
                    end
                end
            end
        end in
      match Derivation_type drv with
      | fail e => (fail e, drvHashes)
      | ok CAFixed =>
          match caFixedOutputHashes store drv with
          | ok outputHashes => (ok (CaOutputHashes outputHashes), drvHashes)
          | fail e => (fail e, drvHashes)
          end
      | ok CAFloating =>
          (fail (Error "Floating CA derivations are unimplemented"), drvHashes)
      | ok Regular =>
          let '(inputs2, drvHashes) :=
            fold_left
              (fun (acc : result (list (string * list string)) * DrvHashes) i =>
                 match acc with
                 | (fail e, memo) => (fail e, memo)
                 | (ok inputs2, memo) =>
                     match pathDerivationModulo (fst i) memo with
                     | (fail e, memo') => (fail e, memo')
                     | (ok res, memo') => (replaceInput res i inputs2, memo')
                     end
                 end)
              (inputDrvs drv) (ok [], drvHashes) in
          (inputs2 <- inputs2 ;;
           s <- unparse store drv maskOutputs (Some inputs2) ;;
           ok (DrvHash (hashString_SHA256 s)),
           drvHashes)
      end
  end.

(* ================================================================== *)
(** * store-api.cc: path infos, signatures and copying *)
(* ================================================================== *)

Section StoreAPI.

(** The CBOR bytes that [computeIPFSHash] hashes: the JSON form of the
    content address (to_json is not among the sources) with every CID
    replaced by its packed multihash, through [nlohmann::json::to_cbor]. *)
Variable ipfsCbor : ContentAddress -> result string.

(** [verifyDetached(data, sig, publicKeys)] of crypto.hh. *)
Variable verifyDetached : string -> string -> PublicKeys -> bool.

(** The backend operations [narFromPath] and [addToStore]; the latter
    answers with the path infos of the destination after the addition. *)
Variable narFromPath : Store -> StorePath -> result string.
Variable addToStore :
  Store -> ValidPathInfo -> string -> bool -> bool -> result (list (StorePath * ValidPathInfo)).

(** [HashModuloSink(htSHA256, modulus)] of references.hh applied to a
    whole NAR. *)
Variable hashModuloSink : string -> string -> Hash.

(** [settings.keepGoing] *)
Variable keepGoing : bool.

(** [computeIPFSHash] *)
Definition computeIPFSHash (info_ : ContentAddress) : result Hash :=
  assert (match info info_ with caIPFSInfo _ => true | _ => false end)
    "std::holds_alternative<IPFSInfo>(info.info)" ;;;
  cbor <- ipfsCbor info_ ;;
  ok (hashString_SHA256 cbor).

(** [Store::makeFixedOutputPathFromCA] *)
Definition makeFixedOutputPathFromCA (store : Store) (info_ : ContentAddress)
  : result StorePath :=
  match info info_ with
  | caTextInfo ti => makeTextPath store (name info_) ti
  | caFixedOutputInfo foi => makeFixedOutputPath store (name info_) foi
  | caIPFSInfo io => h <- computeIPFSHash info_ ;; makeIPFSPath store (name info_) h
  | caIPFSHash ic => makeIPFSPath store (name info_) ic
  end.

(** [ValidPathInfo::referencesPossiblyToSelf()] *)
Definition ValidPathInfo_referencesPossiblyToSelf (this : ValidPathInfo) : list StorePath :=
  referencesPossiblyToSelf (refs this) (path this).

(** [ValidPathInfo::fingerprint] *)
Definition fingerprint (store : Store) (this : ValidPathInfo) : result string :=
  match narHash this with
  | Some h =>
      if (narSize this =? 0)%N then
        fail (Error ("cannot calculate fingerprint of path '"
                     ++ printStorePath store (path this)
                     ++ "' because its size/hash is not known"))
      else
        ok ("1;" ++ printStorePath store (path this) ++ ";"
            ++ to_string Base32 true h ++ ";"
            ++ decimal (narSize this) ++ ";"
            ++ concatStringsSep ","
                 (printStorePathSet store (ValidPathInfo_referencesPossiblyToSelf this)))
  | None =>
      fail (Error ("cannot calculate fingerprint of path '"
                   ++ printStorePath store (path this)
                   ++ "' because its size/hash is not known"))
  end.

(** [ValidPathInfo::fullContentAddressOpt] *)
Definition fullContentAddressOpt (this : ValidPathInfo) : result (option ContentAddress) :=
  match ca this with
  | None => ok None
  | Some c =>
      i <- match c with
           | TextHash th =>
               assert (negb (hasSelfReference (refs this))) "!hasSelfReference" ;;;
               ok (caTextInfo (mkTextInfo th (references (refs this))))
           | FixedOutputHash m h =>
               ok (caFixedOutputInfo (mkFixedOutputInfo m h (refs this)))
           | IPFSHash io => ok (caIPFSHash io)
           end ;;
      ok (Some (mkContentAddress (StorePath_name (path this)) i))
  end.

(** [ValidPathInfo::isContentAddressed]; the warning it prints when the
    paths differ is not modelled. *)
Definition isContentAddressed (store : Store) (this : ValidPathInfo) : result bool :=
  fullCaOpt <- fullContentAddressOpt this ;;
  match fullCaOpt with
  | None => ok false
  | Some fullCa =>
      caPath <- makeFixedOutputPathFromCA store fullCa ;;
      let res := StorePath_eqb caPath (path this) in
      ok res
  end.

(** [ValidPathInfo::checkSignature] *)
Definition checkSignature (store : Store) (publicKeys : PublicKeys) (sig : string)
    (this : ValidPathInfo) : result bool :=
  fp <- fingerprint store this ;;
  ok (verifyDetached fp sig publicKeys).

(** [ValidPathInfo::checkSignatures] *)
Definition checkSignatures (store : Store) (publicKeys : PublicKeys) (this : ValidPathInfo)
  : result N :=
  b <- isContentAddressed store this ;;
  if b then ok maxSigs
  else
    fold_left
      (fun acc sig =>
         good <- acc ;;
         v <- checkSignature store publicKeys sig this ;;
         ok (if v then (good + 1)%N else good))
      (sigs this) (ok 0%N).

(** [copyStorePath] called with a store path (the branch that recomputes
    the path of a content address given as such is not entered).  The
    NAR is streamed from [narFromPath] into [addToStore]; activities and
    progress reports are not modelled. *)
Definition copyStorePath (srcStore dstStore : Store) (storePath : StorePath)
    (repair checkSigs : bool) : result (list (StorePath * ValidPathInfo)) :=
  info_ <- queryPathInfo srcStore storePath ;;
  match narHash info_ with
  | None =>
      nar <- narFromPath srcStore storePath ;;
      let h :=
        if negb (isSome (ca info_)) || negb (hasSelfReference (refs info_))
        then hashString_SHA256 nar
        else hashModuloSink (hashPart (path info_)) nar in
      let info2 :=
        mkValidPathInfo (path info_) (deriver info_) (Some h) (refs info_)
          (registrationTime info_)
          (if (narSize info_ =? 0)%N then N.of_nat (String.length nar) else narSize info_)
          false (sigs info_) (ca info_) in
      addToStore dstStore info2 nar repair checkSigs
  | Some h =>
      let info2 :=
        mkValidPathInfo (path info_) (deriver info_) (Some h) (refs info_)
          (registrationTime info_) (narSize info_) false (sigs info_) (ca info_) in
      nar <- narFromPath srcStore storePath ;;
      addToStore dstStore info2 nar repair checkSigs
  end.

(** What the traversal of [copyPaths] changes: the map it returns and the
    path infos of the destination. *)
Record CopyState : Type := mkCopyState {
  pathsMap : list (StorePath * StorePath);
  dstInfos : list (StorePath * ValidPathInfo)
}.

Definition dstOf (dstStore : Store) (st : CopyState) : Store :=
  mkStore (storeDir dstStore) (dstInfos st) (drvFiles dstStore).

(** The block both callbacks of [copyPaths] start with: the path under
    which the destination knows [storePath].  Of the destination only the
    store directory is read here, which no copy changes. *)
Definition storePathForDst (srcStore dstStore : Store) (storePath : StorePath)
    (info_ : ValidPathInfo) : result StorePath :=
  if isSome (ca info_) && isEmpty (references (refs info_))
     && negb (hasSelfReference (refs info_))
  then
    fullCaOpt <- fullContentAddressOpt info_ ;;
    fullCa <- deref fullCaOpt "*info->fullContentAddressOpt()" ;;
    p <- makeFixedOutputPathFromCA dstStore fullCa ;;
    (if String.eqb (storeDir dstStore) (storeDir srcStore)
     then assert (StorePath_eqb p storePath) "storePathForDst == storePath"
     else ok tt) ;;;
    ok p
  else ok storePath.

(** The first callback: the edges of a node. *)
Definition copyPaths_getEdges (srcStore dstStore : Store) (st : CopyState)
    (storePathS : string) : result (list string * CopyState) :=
  storePath <- parseStorePath srcStore storePathS ;;
  info_ <- queryPathInfo srcStore storePath ;;
  p <- storePathForDst srcStore dstStore storePath info_ ;;
  let st := mkCopyState (map_insert_or_assign storePath p (pathsMap st)) (dstInfos st) in
  valid <- isValidPath (dstOf dstStore st) p ;;
  if valid then ok ([], st)
  else ok (printStorePathSet srcStore (references (refs info_)), st).

(** The second callback: the copy of a node. *)
Definition copyPaths_processNode (srcStore dstStore : Store) (repair checkSigs : bool)
    (st : CopyState) (storePathS : string) : result CopyState :=
  storePath <- parseStorePath srcStore storePathS ;;
  info_ <- queryPathInfo srcStore storePath ;;
  p <- storePathForDst srcStore dstStore storePath info_ ;;
  let st := mkCopyState (map_insert_or_assign storePath p (pathsMap st)) (dstInfos st) in
  valid <- isValidPath (dstOf dstStore st) p ;;
  if negb valid then
    match copyStorePath srcStore (dstOf dstStore st) storePath repair checkSigs with
    | ok infos => ok (mkCopyState (pathsMap st) infos)
    | fail e =>
        if isNixError e then
          if negb keepGoing then fail e else ok st
        else fail e
    end
  else ok st.

(** Modelled from the spec: [processGraph] of thread-pool.hh, which is not
    among the sources; section 4.5 step 3: every node is asked for its
    edges, and a node is processed once all its edges inside the graph
    have been processed.  The worker pool is replaced by one sequential
    schedule: all edges first, then the eligible nodes in set order. *)
Section ProcessGraph.
Context {S : Type}.
Variable getEdges : S -> string -> result (list string * S).
Variable processNode : S -> string -> result S.

Fixpoint collectEdges (nodes todo : list string) (st : S)
  : result (list (string * list string) * S) :=
  match todo with
  | [] => ok ([], st)
  | node :: todo' =>
      r <- getEdges st node ;;
      let edges :=
        filter (fun ref => set_count ref nodes) (set_erase node (fst r)) in
      rest <- collectEdges nodes todo' (snd r) ;;
      ok ((node, edges) :: fst rest, snd rest)
  end.

Definition eligible (left : list string) (n : string * list string) : bool :=
  forallb (fun ref => negb (set_count ref left)) (snd n).

Fixpoint processLeft (fuel : nat) (graph : list (string * list string))
    (left : list string) (st : S) : result S :=
  match fuel with
  | O =>
      if isEmpty left then ok st
      else fail (Error "graph processing incomplete (cyclic reference?)")
  | Datatypes.S fuel' =>
      match find (fun n => set_count (fst n) left && eligible left n) graph with
      | Some n =>
          st <- processNode st (fst n) ;;
          processLeft fuel' graph (set_erase (fst n) left) st
      | None =>
          if isEmpty left then ok st
          else fail (Error "graph processing incomplete (cyclic reference?)")
      end
  end.

Definition processGraph (nodes : list string) (st : S) : result S :=
  r <- collectEdges nodes nodes st ;;
  processLeft (List.length nodes) (fst r) nodes (snd r).
End ProcessGraph.

(** [copyPaths]; it answers with the map and, here, with the path infos
    of the destination afterwards. *)
Definition copyPaths (srcStore dstStore : Store) (storePaths : list StorePath)
    (repair checkSigs substitute : bool) : result CopyState :=
  valid <- queryValidPaths dstStore storePaths ;;
  let missing :=
    fold_left
      (fun missing path_ =>
         if negb (set_count path_ valid)
         then set_insert (printStorePath srcStore path_) missing else missing)
      storePaths [] in
  let pathsMap :=
    fold_left (fun m path_ => map_insert_or_assign path_ path_ m) storePaths [] in
  let st := mkCopyState pathsMap (pathInfos dstStore) in
  if isEmpty missing then ok st
  else
    processGraph
      (copyPaths_getEdges srcStore dstStore)
      (copyPaths_processNode srcStore dstStore repair checkSigs)
      missing st.

End StoreAPI.

(* ================================================================== *)
(** * Vocabulary of the properties *)
(* ================================================================== *)

(** The words of the design document, section 4.1: the fingerprint of a
    fixed-output path without references, where [hex] is the base-16
    rendering with the algorithm in front, and the path made from a
    fingerprint. *)
Definition spec_ingestionPrefix (m : FileIngestionMethod) : string :=
  match m with Flat => "" | Recursive => "r:" | Git => "git:" end.

Definition spec_fixedOutputFingerprint (storeDirectory name : string)
    (m : FileIngestionMethod) (contentHash : Hash) : string :=
  let h2 := hashString_SHA256
              ("fixed:out:" ++ spec_ingestionPrefix m ++ to_string Base16 true contentHash ++ ":") in
  "output:out" ++ ":" ++ to_string Base16 true h2 ++ ":" ++ storeDirectory ++ ":" ++ name.

Definition spec_hashPartOfFingerprint (s : string) : string :=
  printHash32 (compressHash (hashString_SHA256 s) 20).

(** The content addresses of the data model that the textual form covers:
    a text hash is a SHA-256 hash, and every digest has the size of its
    algorithm. *)
Definition textual (ca : MiniContentAddress) : bool :=
  match ca with
  | TextHash h => HashType_eqb (type h) htSHA256 && Hash_wf h
  | FixedOutputHash _ h => Hash_wf h
  | IPFSHash _ => false
  end.

(** The prefix of a raw content address: the text before its first colon. *)
Definition prefixOf (rawCa : string) : option string :=
  match string_find ":" rawCa with
  | Some n => Some (string_take n rawCa)
  | None => None
  end.

(** The order of [std::set<std::string>]. *)
Definition string_lt (a b : string) : Prop := String.compare a b = Lt.

(** The words of the design document, section 6: the references of the
    path info, sorted, as full paths. *)
Definition spec_sortedReferencesAsFullPaths (store : Store) (info_ : ValidPathInfo)
  : list string :=
  set_of_list (map (printStorePath store) (references (refs info_))).

Definition spec_fingerprint (store : Store) (info_ : ValidPathInfo) (h : Hash) : string :=
  "1;" ++ printStorePath store (path info_) ++ ";sha256:" ++ printHash32 h ++ ";"
  ++ decimal (narSize info_) ++ ";"
  ++ concatStringsSep "," (spec_sortedReferencesAsFullPaths store info_).

(** The same path info with other signatures. *)
Definition with_sigs (info_ : ValidPathInfo) (sigs_ : list string) : ValidPathInfo :=
  mkValidPathInfo (path info_) (deriver info_) (narHash info_) (refs info_)
    (registrationTime info_) (narSize info_) (ultimate info_) sigs_ (ca info_).

(** The words of the design document, section 3, on the kind of a
    derivation: the three conditions that raise an error ([None]), then
    the three kinds.  An output is regular when its [hashAlgo] is empty and
    content-addressed when it is not. *)
Definition spec_type (drv : Derivation) : option DerivationType :=
  let outs := map snd (outputs drv) in
  let regular (o : DerivationOutput) := String.eqb (hashAlgo o) "" in
  if existsb regular outs && existsb (fun o => negb (regular o)) outs then None
  else if existsb (fun o => regular o && negb (isSome (out_path o))) outs then None
  else if existsb (fun o => negb (regular o) && isSome (out_path o)) outs then None
  else if forallb (fun o => String.eqb (out_hash o) "" && isSome (out_path o)) outs
  then Some Regular
  else match outputs drv with
       | [(id, o)] =>
           if String.eqb id "out" && negb (String.eqb (out_hash o) "")
              && negb (isSome (out_path o))
           then Some CAFixed else Some CAFloating
       | _ => Some CAFloating
       end.

(** The shape of a fixed-output derivation: a single output [out] with a
    hash and no path. *)
Definition fixedOutputShape (drv : Derivation) : Prop :=
  exists o, outputs drv = [("out", o)] /\ out_hash o <> "" /\ out_path o = None.

(** [inputs2] of [hashDerivationModulo] when the hash modulo of every input
    derivation is read from the memo table. *)
Definition memoizedInputs2 (drvHashes : DrvHashes) (inputDrvs_ : list (StorePath * list string))
  : result (list (string * list string)) :=
  fold_left
    (fun acc i =>
       inputs2 <- acc ;;
       res <- deref (map_find (fst i) drvHashes) "drvHashes.find(drvPath)" ;;
       replaceInput res i inputs2)
    inputDrvs_ (ok []).

(** The traversal of a graph as a chain of steps, each on a node of the
    graph; the list records the nodes visited, latest first. *)
Inductive Chain {S : Type} (Step : string -> S -> S -> Prop) (nodes : list string)
  : list string -> S -> S -> Prop :=
| Chain_nil (st : S) : Chain Step nodes [] st st
| Chain_step (vs : list string) (st st1 st2 : S) (n : string) :
    Chain Step nodes vs st st1 -> In n nodes -> Step n st1 st2 ->
    Chain Step nodes (n :: vs) st st2.

(** The path the destination gives to a path of the source. *)
Definition expectedDst (ipfsCbor : ContentAddress -> result string)
    (srcStore dstStore : Store) (p : StorePath) : result StorePath :=
  info_ <- queryPathInfo srcStore p ;;
  storePathForDst ipfsCbor srcStore dstStore p info_.

(** One visit of a node by a callback of [copyPaths] records the expected
    path of that node in the map. *)
Definition recordsDst (ipfsCbor : ContentAddress -> result string)
    (srcStore dstStore : Store) (n : string) (st st' : CopyState) : Prop :=
  exists p q,
    parseStorePath srcStore n = ok p
    /\ expectedDst ipfsCbor srcStore dstStore p = ok q
    /\ pathsMap st' = map_insert_or_assign p q (pathsMap st).

(* ================================================================== *)
(** * Inputs of the examples *)
(* ================================================================== *)

Module Examples.

Definition nixStore : Store := mkStore "/nix/store" [] [].
Definition otherStore : Store := mkStore "/other/store" [] [].

Definition noReferences : PathReferences StorePath := mkPathReferences [] false.

Definition sha256_world : Hash := hashString_SHA256 "world".
Definition md5_zero : Hash := mkHash htMD5 (repeat x00 16).
Definition sha1_zero : Hash := mkHash htSHA1 (repeat x00 20).

Definition gitSha256 : FixedOutputInfo := mkFixedOutputInfo Git sha256_world noReferences.
Definition gitMd5 : FixedOutputInfo := mkFixedOutputInfo Git md5_zero noReferences.
Definition gitSha1 : FixedOutputInfo := mkFixedOutputInfo Git sha1_zero noReferences.
Definition flatSha256 : FixedOutputInfo := mkFixedOutputInfo Flat sha256_world noReferences.

Definition pathA : StorePath := mkStorePath "aaaaaaaaaaaaaaaaaaaaaaaaaaaaaaaa-x".
Definition pathB : StorePath := mkStorePath "bbbbbbbbbbbbbbbbbbbbbbbbbbbbbbbb-y".
Definition pathFoo : StorePath := mkStorePath "xxxxxxxxxxxxxxxxxxxxxxxxxxxxxxxx-foo".

(** Reference sets: one that holds the path [pathA] itself, and one that
    refers to [pathB] and, by the flag, to the path itself. *)
Definition selfInSet : PathReferences StorePath := mkPathReferences [pathA] false.
Definition selfByFlag : PathReferences StorePath := mkPathReferences [pathB] true.

(** A path info with a self-reference and no other reference. *)
Definition selfReferring : ValidPathInfo :=
  mkValidPathInfo pathFoo None (Some sha256_world) (mkPathReferences [] true)
    0 42 false [] None.

(** The path info of scenario S5: two references, none to itself. *)
Definition twoReferences : ValidPathInfo :=
  mkValidPathInfo pathFoo None (Some sha256_world) (mkPathReferences [pathA; pathB] false)
    0 42 false [] None.

(** An ordinary derivation: one output [out] with its path, no hash. *)
Definition helloDrv : Derivation :=
  mkDerivation [("out", mkDerivationOutput (Some pathFoo) "" "")] [] []
    "x86_64-linux" "/bin/sh" ["-c"; "echo hello > $out"]
    [("out", "/nix/store/xxxxxxxxxxxxxxxxxxxxxxxxxxxxxxxx-foo")].

(** The same derivation with the path of its output left out. *)
Definition pathlessDrv : Derivation :=
  mkDerivation [("out", mkDerivationOutput None "" "")] [] []
    "x86_64-linux" "/bin/sh" ["-c"; "echo hello > $out"]
    [("out", "/nix/store/xxxxxxxxxxxxxxxxxxxxxxxxxxxxxxxx-foo")].

(** A derivation with two outputs that both carry a hash. *)
Definition twoFixedOutputs : Derivation :=
  mkDerivation
    [("doc", mkDerivationOutput None "sha256" "abc");
     ("out", mkDerivationOutput None "sha256" "abc")]
    [] [] "x86_64-linux" "/bin/sh" [] [].

(** Scenario S4: a derivation without output path that consumes the
    output [out] of the derivation at [pathA], and a memo table that knows
    [pathA] as a fixed-output derivation. *)
Definition consumerDrv : Derivation :=
  mkDerivation [("out", mkDerivationOutput None "" "")] [(pathA, ["out"])] []
    "x86_64-linux" "/bin/sh" [] [].

Definition fixedOutputMemo : DrvHashes :=
  [(pathA, CaOutputHashes [("out", hashString_SHA256 "fixed:out:sha256:abc:")])].

(** Instances of the operations that the sources leave to other modules:
    no peer-network daemon, a verifier that trusts no signature, and a
    destination backend that registers the path info it is given. *)
Definition noCbor (_ : ContentAddress) : result string :=
  fail (Error "cannot talk to the ipfs daemon").
Definition trustNothing (_ _ : string) (_ : PublicKeys) : bool := false.
Definition narOfName (_ : Store) (p : StorePath) : result string :=
  ok ("nar of " ++ baseName p).
Definition registerInfo (dst : Store) (i : ValidPathInfo) (_ : string) (_ _ : bool)
  : result (list (StorePath * ValidPathInfo)) :=
  ok (map_insert_or_assign (path i) i (pathInfos dst)).
Definition sha256Modulo (_ nar : string) : Hash := hashString_SHA256 nar.

(** A flat fixed-output file and its path info in [/nix/store]. *)
Definition tarballPath : StorePath :=
  Eval vm_compute in
    match makeFixedOutputPath nixStore "tarball.tgz" flatSha256 with
    | ok p => p
    | fail _ => mkStorePath ""
    end.

Definition tarballInfo : ValidPathInfo :=
  mkValidPathInfo tarballPath None (Some sha256_world) noReferences 0 5 false
    ["cache.example.org-1:bm90IGEgc2lnbmF0dXJl"]
    (Some (FixedOutputHash Flat sha256_world)).

(** A recursive SHA-256 fixed output with one reference, and its path
    info in [/nix/store]. *)
Definition pkgCA : FixedOutputInfo :=
  mkFixedOutputInfo Recursive sha256_world (mkPathReferences [pathA] false).

Definition pkgPath : StorePath :=
  Eval vm_compute in
    match makeFixedOutputPath nixStore "pkg" pkgCA with
    | ok p => p
    | fail _ => mkStorePath ""
    end.

Definition pkgInfo : ValidPathInfo :=
  mkValidPathInfo pkgPath None (Some sha256_world) (mkPathReferences [pathA] false)
    0 5 false [] (Some (FixedOutputHash Recursive sha256_world)).

(** The source store holds both; the destination [/other/store] is empty. *)
Definition sourceStore : Store :=
  mkStore "/nix/store"
    (map_insert_or_assign pkgPath pkgInfo
       (map_insert_or_assign tarballPath tarballInfo []))
    [].

End Examples.

(* ================================================================== *)
(** * Facts about strings and ordered containers *)
(* ================================================================== *)

Lemma length_string_of_list_ascii (l : list ascii) :
  String.length (string_of_list_ascii l) = List.length l.
Proof. induction l as [|c l IH]; simpl; [reflexivity | now rewrite IH]. Qed.

Lemma string_take_app (a b : string) : string_take (String.length a) (a ++ b) = a.
Proof. induction a as [|c a IH]; simpl; [now destruct b | now rewrite IH]. Qed.

Lemma string_app_assoc (a b c : string) : (a ++ b) ++ c = a ++ b ++ c.
Proof. induction a as [|x a IH]; simpl; [reflexivity | now rewrite IH]. Qed.

Lemma prefix_app (a b : string) : String.prefix a (a ++ b) = true.
Proof.
  induction a as [|x a IH]; simpl; [now destruct b|].
  destruct (ascii_dec x x) as [_|N]; [exact IH | contradiction].
Qed.

Lemma string_drop_app (a b : string) : string_drop (String.length a) (a ++ b) = b.
Proof. induction a as [|x a IH]; simpl; [reflexivity | exact IH]. Qed.

Section ContainerFacts.
Context {K : Type} `{Ord K}.

Lemma keq_true (a b : K) : keq a b = true <-> a = b.
Proof.
  unfold keq. rewrite <- cmp_eq.
  destruct (cmp a b); split; intro E; try reflexivity; discriminate E.
Qed.

Lemma keq_refl (a : K) : keq a a = true.
Proof. now apply keq_true. Qed.

Lemma set_erase_absent (x : K) (s : list K) :
  set_count x s = false -> set_erase x s = s.
Proof.
  induction s as [|y s IH]; simpl; [reflexivity|].
  intros E. apply orb_false_iff in E as [E1 E2].
  rewrite E1. now rewrite IH.
Qed.

Lemma set_count_insert (x : K) (s : list K) : set_count x (set_insert x s) = true.
Proof.
  induction s as [|y s IH]; simpl.
  - now rewrite keq_refl.
  - destruct (cmp x y) eqn:E; simpl.
    + unfold keq. now rewrite E.
    + now rewrite keq_refl.
    + rewrite IH. apply orb_true_r.
Qed.

Lemma set_erase_insert (x : K) (s : list K) :
  set_count x s = false -> set_erase x (set_insert x s) = s.
Proof.
  induction s as [|y s IH]; simpl.
  - intros _. now rewrite keq_refl.
  - intros E. apply orb_false_iff in E as [E1 E2].
    destruct (cmp x y) eqn:C.
    + unfold keq in E1. rewrite C in E1. discriminate E1.
    + simpl. rewrite keq_refl, E1. now rewrite (set_erase_absent x s E2).
    + simpl. rewrite E1. now rewrite IH.
Qed.

Lemma In_set_insert (z x : K) (s : list K) :
  In z (set_insert x s) <-> z = x \/ In z s.
Proof.
  induction s as [|y s IH]; simpl.
  - intuition.
  - destruct (cmp x y) eqn:C; simpl.
    + apply cmp_eq in C. subst y. intuition.
    + intuition.
    + rewrite IH. intuition.
Qed.

Lemma In_set_fold (z : K) (l acc : list K) :
  In z (fold_left (fun s x => set_insert x s) l acc) <-> In z l \/ In z acc.
Proof.
  revert acc. induction l as [|x l IH]; intros acc; simpl.
  - intuition.
  - rewrite IH, In_set_insert. intuition.
Qed.
End ContainerFacts.

Section MapFacts.
Context {K V : Type} `{Ord K}.

Lemma set_count_In (x : K) (s : list K) : set_count x s = true <-> In x s.
Proof.
  induction s as [|y s IH]; simpl; [split; [discriminate | intros []]|].
  rewrite orb_true_iff, IH, keq_true. intuition.
Qed.

Lemma In_set_erase (x y : K) (s : list K) : In x (set_erase y s) -> In x s.
Proof.
  induction s as [|z s IH]; simpl; [intros []|].
  destruct (keq y z); simpl; intuition.
Qed.

Lemma map_find_insert (k k' : K) (v : V) (m : list (K * V)) :
  map_find k (map_insert_or_assign k' v m)
  = if keq k k' then Some v else map_find k m.
Proof.
  induction m as [|[k0 v0] m IH]; simpl; [reflexivity|].
  destruct (cmp k' k0) eqn:C; simpl.
  - apply cmp_eq in C. subst k0.
    destruct (keq k k'); reflexivity.
  - reflexivity.
  - rewrite IH. destruct (keq k k0) eqn:E0; [|reflexivity].
    destruct (keq k k') eqn:E'; [|reflexivity].
    apply keq_true in E0, E'. subst k0 k'.
    assert (X : cmp k k = Eq) by now apply cmp_eq. rewrite X in C. discriminate C.
Qed.
End MapFacts.

Lemma set_insert_Sorted (x : string) (s : list string) :
  Sorted string_lt s -> Sorted string_lt (set_insert x s).
Proof.
  induction s as [|y s IH]; intros S; simpl.
  - repeat constructor.
  - destruct (String.compare x y) eqn:C.
    + exact S.
    + constructor; [exact S | constructor; exact C].
    + inversion S as [|? ? S' Hd]; subst.
      assert (Lyx : string_lt y x).
      { unfold string_lt. rewrite String.compare_antisym, C. reflexivity. }
      constructor; [now apply IH|].
      destruct s as [|z s]; simpl.
      * constructor; exact Lyx.
      * inversion Hd; subst.
        destruct (String.compare x z); constructor; assumption.
Qed.

Lemma set_of_list_Sorted (l : list string) : Sorted string_lt (set_of_list l).
Proof.
  unfold set_of_list.
  assert (G : forall acc, Sorted string_lt acc ->
                          Sorted string_lt (fold_left (fun s x => set_insert x s) l acc)).
  { induction l as [|x l IH]; intros acc S; simpl; [exact S|].
    apply IH. now apply set_insert_Sorted. }
  apply G. constructor.
Qed.

(* ================================================================== *)
(** * Properties of the path-naming algebra *)
(* ================================================================== *)

(** The hash functions are computed on closed inputs only. *)
Arguments hashString_SHA256 : simpl never.
Arguments compressHash : simpl never.
Arguments to_string : simpl never.
Arguments makeStorePath : simpl never.
Arguments printHash32 : simpl never.
Arguments printHash16 : simpl never.

Lemma length_printHash32_bytes (bs : list byte) :
  String.length (printHash32_bytes bs) = base32Len (List.length bs).
Proof.
  unfold printHash32_bytes.
  now rewrite length_string_of_list_ascii, length_map, length_rev, length_seq.
Qed.

Lemma hashSize_compressHash (h : Hash) (n : nat) : hashSize (compressHash h n) = n.
Proof. unfold hashSize, compressHash; simpl. now rewrite length_map, length_seq. Qed.

(** The hash part of a path made from a 20-byte digest is the digest in
    base 32. *)
Lemma hashPart_StorePath_of_hash (h : Hash) (name : string) :
  hashSize h = 20 -> hashPart (StorePath_of_hash h name) = printHash32 h.
Proof.
  intros Hsz.
  assert (L : String.length (printHash32 h) = 32).
  { unfold printHash32. rewrite length_printHash32_bytes.
    unfold hashSize in Hsz. now rewrite Hsz. }
  unfold hashPart, StorePath_of_hash, to_string. cbn [baseName].
  change ("" ++ printHash32 h) with (printHash32 h).
  rewrite <- L. apply string_take_app.
Qed.

Lemma makeFileIngestionPrefix_spec (m : FileIngestionMethod) :
  makeFileIngestionPrefix m = spec_ingestionPrefix m.
Proof. now destruct m. Qed.

(** The three outcomes of [makeFixedOutputPath], by its guards. *)
Lemma makeFixedOutputPath_cases (store : Store) (name : string) (info : FixedOutputInfo) :
  makeFixedOutputPath store name info =
    if FileIngestionMethod_eqb (foi_method info) Git
       && negb (HashType_eqb (type (foi_hash info)) htSHA1)
    then fail (Error "Git file ingestion must use sha1 hash")
    else if HashType_eqb (type (foi_hash info)) htSHA256
            && FileIngestionMethod_eqb (foi_method info) Recursive
    then ok (makeStorePath store (makeType store "source" (foi_references info))
               (foi_hash info) name)
    else if negb (isEmpty (references (foi_references info)))
    then fail (AssertionFailed "info.references.references.size() == 0")
    else if hasSelfReference (foi_references info)
    then fail (AssertionFailed "!info.references.hasSelfReference")
    else ok (makeStorePath store "output:out"
               (hashString_SHA256
                  ("fixed:out:" ++ makeFileIngestionPrefix (foi_method info)
                   ++ to_string Base16 true (foi_hash info) ++ ":")) name).
Proof.
  unfold makeFixedOutputPath.
  destruct (FileIngestionMethod_eqb (foi_method info) Git
            && negb (HashType_eqb (type (foi_hash info)) htSHA1)); [reflexivity|].
  destruct (HashType_eqb (type (foi_hash info)) htSHA256
            && FileIngestionMethod_eqb (foi_method info) Recursive); [reflexivity|].
  destruct (references (foi_references info)) as [|r rs]; simpl; [|reflexivity].
  destruct (hasSelfReference (foi_references info)); reflexivity.
Qed.

(** Scenario S1: the path of the text "world" named "hello". *)
Example makeTextPath_S1 :
  to_string Base16 true Examples.sha256_world
  = "sha256:486ea46224d1bb4fb680f34f7c9ad96a8f24ec88be73ea8e5a6c65260e9cb8a7"
  /\ makeTextPath Examples.nixStore "hello" (mkTextInfo Examples.sha256_world [])
     = ok (mkStorePath "a8pm5wln4zaphc7x9iaqrgm9fravifib-hello").
Proof. split; vm_compute; reflexivity. Qed.

(** Scenario S2: a flat fixed output; the fingerprint and the path. *)
Example makeFixedOutputPath_S2 :
  spec_fixedOutputFingerprint "/nix/store" "tarball.tgz" Flat Examples.sha256_world
  = "output:out:sha256:fd61cbd148f7d5b467b6902f1579bff6041c0adde664ff45c63b47961915314d"
    ++ ":/nix/store:tarball.tgz"
  /\ makeFixedOutputPath Examples.nixStore "tarball.tgz" Examples.flatSha256
     = ok (mkStorePath "6s302dximqqldxfq9pvcqa7k31vsf03b-tarball.tgz").
Proof. split; vm_compute; reflexivity. Qed.

(** Scenario S3: a recursive SHA-256 fixed output with one reference; the
    type is ["source:" + reference], without [:self]. *)
Example makeFixedOutputPath_S3 :
  makeType Examples.nixStore "source" (foi_references Examples.pkgCA)
  = "source:/nix/store/aaaaaaaaaaaaaaaaaaaaaaaaaaaaaaaa-x"
  /\ makeFixedOutputPath Examples.nixStore "pkg" Examples.pkgCA
     = ok (mkStorePath "z33dqpkmn5218hn0asdd8z3qmifk3ybz-pkg").
Proof. split; vm_compute; reflexivity. Qed.

(** C10: a Git ingestion whose hash is not SHA-1 raises the error
    "Git file ingestion must use sha1 hash" and no path is made; whenever
    [makeFixedOutputPath] returns a path for the Git method, the content
    hash is a SHA-1 hash. *)
Theorem makeFixedOutputPath_git_needs_sha1 :
  forall (store : Store) (name : string) (info : FixedOutputInfo),
    foi_method info = Git ->
    (type (foi_hash info) <> htSHA1 ->
     makeFixedOutputPath store name info
     = fail (Error "Git file ingestion must use sha1 hash"))
    /\ (forall p, makeFixedOutputPath store name info = ok p ->
                  type (foi_hash info) = htSHA1).
Proof.
  intros store name info Hgit.
  rewrite makeFixedOutputPath_cases, Hgit. simpl.
  destruct (HashType_eqb (type (foi_hash info)) htSHA1) eqn:E; simpl.
  - apply HashType_eqb_eq in E. split; [intros N; contradiction | intros; exact E].
  - split; [reflexivity | intros p Hp; discriminate Hp].
Qed.

Lemma makeFixedOutputPath_git_needs_sha1_witness :
  makeFixedOutputPath Examples.nixStore "repo" Examples.gitSha256
  = fail (Error "Git file ingestion must use sha1 hash")
  /\ (forall p, makeFixedOutputPath Examples.nixStore "repo" Examples.gitSha1 = ok p ->
                type (foi_hash Examples.gitSha1) = htSHA1).
Proof.
  split.
  - apply (makeFixedOutputPath_git_needs_sha1 Examples.nixStore "repo" Examples.gitSha256).
    + reflexivity.
    + simpl. discriminate.
  - apply (makeFixedOutputPath_git_needs_sha1 Examples.nixStore "repo" Examples.gitSha1).
    reflexivity.
Defined.

(** C9, as stated, fails: without references the call need not return a
    path.  A Git ingestion with an MD5 hash and no references raises the
    Git error. *)
Lemma makeFixedOutputPath_no_references_not_total :
  references (foi_references Examples.gitMd5) = []
  /\ hasSelfReference (foi_references Examples.gitMd5) = false
  /\ makeFixedOutputPath Examples.nixStore "repo" Examples.gitMd5
     = fail (Error "Git file ingestion must use sha1 hash").
Proof. split; [reflexivity|]. split; reflexivity. Qed.

(** C9, amended: outside recursive ingestion with SHA-256, and once the Git
    check is passed, [makeFixedOutputPath] returns a path exactly when the
    reference set is empty and there is no self-reference, and fails an
    assertion otherwise; so without references no assertion fails, and the
    call returns a path unless the method is Git with a hash other than
    SHA-1, where it raises the Git error. *)
Theorem makeFixedOutputPath_reference_assertions :
  forall (store : Store) (name : string) (info : FixedOutputInfo),
    (* references are only accepted for recursive SHA-256 *)
    (~ (foi_method info = Recursive /\ type (foi_hash info) = htSHA256) ->
     ~ (foi_method info = Git /\ type (foi_hash info) <> htSHA1) ->
     ((references (foi_references info) = []
       /\ hasSelfReference (foi_references info) = false)
      -> exists p, makeFixedOutputPath store name info = ok p)
     /\ (~ (references (foi_references info) = []
            /\ hasSelfReference (foi_references info) = false)
         -> exists c, makeFixedOutputPath store name info = fail (AssertionFailed c)))
    (* without references: no assertion fails, and only the Git check can fail *)
    /\ (references (foi_references info) = [] ->
        hasSelfReference (foi_references info) = false ->
        (forall c, makeFixedOutputPath store name info <> fail (AssertionFailed c))
        /\ ((foi_method info = Git /\ type (foi_hash info) <> htSHA1) ->
            makeFixedOutputPath store name info
            = fail (Error "Git file ingestion must use sha1 hash"))
        /\ (~ (foi_method info = Git /\ type (foi_hash info) <> htSHA1) ->
            exists p, makeFixedOutputPath store name info = ok p)).
Proof.
  intros store name [m h [rs self]]; simpl.
  rewrite makeFixedOutputPath_cases; simpl.
  split.
  - intros NRec NGit.
    assert (G : FileIngestionMethod_eqb m Git && negb (HashType_eqb (type h) htSHA1) = false).
    { destruct m; simpl; try reflexivity.
      destruct (HashType_eqb (type h) htSHA1) eqn:E; [reflexivity|].
      exfalso. apply NGit. split; [reflexivity|].
      intros E'. apply HashType_eqb_eq in E'. congruence. }
    assert (R : HashType_eqb (type h) htSHA256 && FileIngestionMethod_eqb m Recursive = false).
    { destruct (HashType_eqb (type h) htSHA256) eqn:E; [|reflexivity].
      apply HashType_eqb_eq in E. destruct m; simpl; try reflexivity.
      exfalso. apply NRec. now split. }
    rewrite G, R. split.
    + intros [-> ->]. simpl. eexists; reflexivity.
    + intros N. destruct rs as [|r rs]; simpl.
      * destruct self; [eexists; reflexivity|]. exfalso. apply N. now split.
      * eexists; reflexivity.
  - intros -> ->. simpl.
    destruct (FileIngestionMethod_eqb m Git && negb (HashType_eqb (type h) htSHA1)) eqn:G.
    + split; [intros c; discriminate|]. split; [reflexivity|].
      intros N. exfalso. apply N.
      apply andb_prop in G as [G1 G2]. split.
      * now destruct m.
      * intros E. apply HashType_eqb_eq in E. rewrite E in G2. discriminate G2.
    + assert (NG : ~ (m = Git /\ type h <> htSHA1)).
      { intros [-> N]. simpl in G. apply negb_false_iff in G.
        apply HashType_eqb_eq in G. contradiction. }
      destruct (HashType_eqb (type h) htSHA256 && FileIngestionMethod_eqb m Recursive).
      * split; [intros c; discriminate|]. split; [intros X; contradiction|].
        intros _. eexists; reflexivity.
      * split; [intros c; discriminate|]. split; [intros X; contradiction|].
        intros _. eexists; reflexivity.
Qed.

Lemma makeFixedOutputPath_reference_assertions_witness :
  (exists p, makeFixedOutputPath Examples.nixStore "tarball.tgz" Examples.flatSha256 = ok p)
  /\ (forall c, makeFixedOutputPath Examples.nixStore "tarball.tgz" Examples.flatSha256
                <> fail (AssertionFailed c)).
Proof.
  pose proof (makeFixedOutputPath_reference_assertions
                Examples.nixStore "tarball.tgz" Examples.flatSha256) as [A B].
  split.
  - apply A.
    + intros [E _]; discriminate E.
    + intros [E _]; discriminate E.
    + split; reflexivity.
  - apply (B eq_refl eq_refl).
Defined.

(** C3, as stated, fails: Git ingestion with a SHA-256 hash and no
    references is not "recursive with SHA-256", yet no path is made. *)
Lemma makeFixedOutputPath_git_sha256_no_path :
  foi_references Examples.gitSha256 = mkPathReferences [] false
  /\ (foi_method Examples.gitSha256, type (foi_hash Examples.gitSha256)) <> (Recursive, htSHA256)
  /\ makeFixedOutputPath Examples.nixStore "repo" Examples.gitSha256
     = fail (Error "Git file ingestion must use sha1 hash").
Proof. split; [reflexivity|]. split; [discriminate | reflexivity]. Qed.

(** C3, amended: for a fixed-output description without references (empty
    set, no self-reference) whose method and hash are neither recursive
    with SHA-256 nor Git with a hash other than SHA-1, the path is the one
    of the fingerprint
    ["output:out" + ":" + hex(h2) + ":" + storeDirectory + ":" + name]
    with [h2 = SHA256("fixed:out:" + ingestionPrefix + hex(contentHash) + ":")],
    where [hex] is the base-16 rendering led by the algorithm name; its
    hash part is the base-32 form of the SHA-256 of the fingerprint folded
    to 20 bytes by exclusive or. *)
Theorem makeFixedOutputPath_without_references :
  forall (store : Store) (name : string) (info : FixedOutputInfo),
    references (foi_references info) = [] ->
    hasSelfReference (foi_references info) = false ->
    ~ (foi_method info = Recursive /\ type (foi_hash info) = htSHA256) ->
    ~ (foi_method info = Git /\ type (foi_hash info) <> htSHA1) ->
    let s := spec_fixedOutputFingerprint (storeDir store) name
               (foi_method info) (foi_hash info) in
    exists p,
      makeFixedOutputPath store name info = ok p
      /\ baseName p = spec_hashPartOfFingerprint s ++ "-" ++ name
      /\ hashPart p = spec_hashPartOfFingerprint s
      /\ printStorePath store p
         = storeDir store ++ "/" ++ spec_hashPartOfFingerprint s ++ "-" ++ name.
Proof.
  intros store name info Hrefs Hself NRec NGit s.
  rewrite makeFixedOutputPath_cases, Hrefs, Hself.
  assert (G : FileIngestionMethod_eqb (foi_method info) Git
              && negb (HashType_eqb (type (foi_hash info)) htSHA1) = false).
  { destruct (foi_method info); simpl; try reflexivity.
    destruct (HashType_eqb (type (foi_hash info)) htSHA1) eqn:E; [reflexivity|].
    exfalso. apply NGit. split; [reflexivity|].
    intros E'. apply HashType_eqb_eq in E'. congruence. }
  assert (R : HashType_eqb (type (foi_hash info)) htSHA256
              && FileIngestionMethod_eqb (foi_method info) Recursive = false).
  { destruct (HashType_eqb (type (foi_hash info)) htSHA256) eqn:E; [|reflexivity].
    apply HashType_eqb_eq in E. destruct (foi_method info); simpl; try reflexivity.
    exfalso. apply NRec. now split. }
  rewrite G, R. cbn [isEmpty negb].
  eexists. split; [reflexivity|].
  subst s.
  unfold makeStorePath, spec_hashPartOfFingerprint, spec_fixedOutputFingerprint.
  rewrite makeFileIngestionPrefix_spec.
  split; [reflexivity|]. split.
  - apply hashPart_StorePath_of_hash. apply hashSize_compressHash.
  - reflexivity.
Qed.

Lemma makeFixedOutputPath_without_references_witness :
  exists p,
    makeFixedOutputPath Examples.nixStore "tarball.tgz" Examples.flatSha256 = ok p
    /\ hashPart p
       = spec_hashPartOfFingerprint
           (spec_fixedOutputFingerprint "/nix/store" "tarball.tgz" Flat Examples.sha256_world).
Proof.
  destruct (makeFixedOutputPath_without_references
              Examples.nixStore "tarball.tgz" Examples.flatSha256)
    as [p [E [_ [Hp _]]]].
  - reflexivity.
  - reflexivity.
  - intros [E _]; discriminate E.
  - intros [E _]; discriminate E.
  - exists p. split; [exact E | exact Hp].
Defined.

(* ================================================================== *)
(** * Properties of the textual form of content addresses *)
(* ================================================================== *)

Lemma parseBase16_byte (b : byte) (rest : string) :
  parseBase16
    (String (nth_char base16Chars (Byte.to_N b / 16))
       (String (nth_char base16Chars (Byte.to_N b mod 16)) rest))
  = match parseBase16 rest with
    | Some bs => Some (b :: bs)
    | None => None
    end.
Proof.
  cbn [parseBase16].
  assert (E : parseBase16Digit (nth_char base16Chars (Byte.to_N b / 16)) = Some (Byte.to_N b / 16)%N
              /\ parseBase16Digit (nth_char base16Chars (Byte.to_N b mod 16))
                 = Some (Byte.to_N b mod 16)%N
              /\ Byte.of_N ((Byte.to_N b / 16) * 16 + Byte.to_N b mod 16) = Some b).
  { destruct b; vm_compute; repeat split. }
  destruct E as [E1 [E2 E3]]. rewrite E1, E2.
  destruct (parseBase16 rest); [now rewrite E3 | reflexivity].
Qed.

Lemma parseBase16_printHash16_bytes (bs : list byte) :
  parseBase16 (printHash16_bytes bs) = Some bs.
Proof.
  induction bs as [|b bs IH]; [reflexivity|].
  cbn [printHash16_bytes]. now rewrite parseBase16_byte, IH.
Qed.

Lemma length_printHash16_bytes (bs : list byte) :
  String.length (printHash16_bytes bs) = 2 * List.length bs.
Proof.
  induction bs as [|b bs IH]; [reflexivity|].
  cbn [printHash16_bytes String.length List.length]. rewrite IH. lia.
Qed.

(** The hash parser reads back the typed base-16 rendering of a hash whose
    digest has the size of its algorithm. *)
Lemma parseHash_to_string (h : Hash) :
  Hash_wf h = true -> parseHash (to_string Base16 true h) = ok h.
Proof.
  destruct h as [ht bs]. unfold Hash_wf, hashSize, to_string, printHash16; cbn [type hash].
  intros W. apply Nat.eqb_eq in W.
  assert (L : Nat.eqb (String.length (printHash16_bytes bs)) (2 * hashSizeOf ht) = true).
  { apply Nat.eqb_eq. rewrite length_printHash16_bytes. now rewrite W. }
  destruct ht; unfold parseHash;
    cbn [printHashType append string_find Ascii.eqb Bool.eqb string_take string_drop
         parseHashType String.eqb];
    rewrite L, parseBase16_printHash16_bytes; reflexivity.
Qed.

(** C4, as stated, fails for the peer-network variant: its rendering
    ["ipfs:" + cid] is rejected by the parser, whose prefixes are [text]
    and [fixed] only. *)
Lemma parseContentAddress_rejects_ipfs :
  parseContentAddress (renderContentAddress (IPFSHash Examples.sha256_world))
  = fail (Error "parseContentAddress: format not recognized; has to be text or fixed").
Proof. vm_compute. reflexivity. Qed.

(** No string at all is parsed to the peer-network variant. *)
Lemma parseContentAddress_never_ipfs (rawCa : string) (h : Hash) :
  parseContentAddress rawCa <> ok (IPFSHash h).
Proof.
  unfold parseContentAddress.
  destruct (string_find ":" rawCa) as [n|]; [|discriminate].
  destruct (String.eqb (string_take n rawCa) "text").
  - destruct (parseHash _) as [h'|e]; cbn [bind]; [|discriminate].
    destruct (negb (HashType_eqb (type h') htSHA256)); discriminate.
  - destruct (String.eqb (string_take n rawCa) "fixed"); [|discriminate].
    destruct (String.eqb (string_take 2 _) "r:").
    + destruct (parseHash _); cbn [bind]; discriminate.
    + destruct (String.eqb (string_take 4 _) "git:");
        destruct (parseHash _); cbn [bind]; discriminate.
Qed.

Lemma parseContentAddress_text (x : string) :
  parseContentAddress ("text:" ++ x)
  = (h <- parseHash x ;;
     if negb (HashType_eqb (type h) htSHA256)
     then fail (Error "parseContentAddress: the text hash should have type SHA256")
     else ok (TextHash h)).
Proof. reflexivity. Qed.

Lemma parseContentAddress_fixed (x : string) :
  parseContentAddress ("fixed:" ++ x)
  = if String.eqb (string_take 2 x) "r:" then
      h <- parseHash (string_drop 2 x) ;; ok (FixedOutputHash Recursive h)
    else if String.eqb (string_take 4 x) "git:" then
      h <- parseHash (string_drop 4 x) ;; ok (FixedOutputHash Git h)
    else
      h <- parseHash x ;; ok (FixedOutputHash Flat h).
Proof. reflexivity. Qed.

(** C4, amended: [parseContentAddress(renderContentAddress(ca)) == ca] for
    every text content address (SHA-256) and every fixed-output content
    address (flat, recursive or Git) of the data model, and not for the
    peer-network variant; a string whose prefix is neither [text] nor
    [fixed], or that has no colon, fails with an error; the empty string
    parses to absent through [parseContentAddressOpt]. *)
Theorem parseContentAddress_renderContentAddress :
  (forall ca, textual ca = true ->
              parseContentAddress (renderContentAddress ca) = ok ca)
  /\ (forall rawCa,
        prefixOf rawCa <> Some "text" -> prefixOf rawCa <> Some "fixed" ->
        exists msg, parseContentAddress rawCa = fail (Error msg))
  /\ parseContentAddressOpt "" = ok None.
Proof.
  split; [|split].
  - intros [h | m h | h] W; cbn [textual] in W; [| |discriminate W].
    + apply andb_prop in W as [T W]. apply HashType_eqb_eq in T.
      unfold renderContentAddress, to_string_default.
      rewrite parseContentAddress_text, (parseHash_to_string h W).
      cbn [bind]. now rewrite T.
    + unfold renderContentAddress, makeFixedOutputCA, to_string_default.
      rewrite parseContentAddress_fixed.
      assert (P := parseHash_to_string h W).
      destruct m; cbn [makeFileIngestionPrefix].
      * (* Flat: the rendering of a hash starts with neither "r:" nor "git:" *)
        assert (S2 : String.eqb (string_take 2 (to_string Base16 true h)) "r:" = false).
        { unfold to_string. now destruct (type h). }
        assert (S4 : String.eqb (string_take 4 (to_string Base16 true h)) "git:" = false).
        { unfold to_string. now destruct (type h). }
        change ("" ++ to_string Base16 true h) with (to_string Base16 true h).
        rewrite S2, S4, P. reflexivity.
      * change (string_take 2 ("r:" ++ to_string Base16 true h)) with "r:".
        change (string_drop 2 ("r:" ++ to_string Base16 true h))
          with (to_string Base16 true h).
        cbn [String.eqb Ascii.eqb Bool.eqb]. rewrite P. reflexivity.
      * change (string_take 2 ("git:" ++ to_string Base16 true h)) with "gi".
        change (string_take 4 ("git:" ++ to_string Base16 true h)) with "git:".
        change (string_drop 4 ("git:" ++ to_string Base16 true h))
          with (to_string Base16 true h).
        cbn [String.eqb Ascii.eqb Bool.eqb]. rewrite P. reflexivity.
  - intros rawCa NT NF. unfold prefixOf in NT, NF. unfold parseContentAddress.
    destruct (string_find ":" rawCa) as [n|]; [|eexists; reflexivity].
    destruct (String.eqb (string_take n rawCa) "text") eqn:ET.
    { apply String.eqb_eq in ET. rewrite ET in NT. contradiction. }
    destruct (String.eqb (string_take n rawCa) "fixed") eqn:EF.
    { apply String.eqb_eq in EF. rewrite EF in NF. contradiction. }
    eexists; reflexivity.
  - reflexivity.
Qed.

Lemma parseContentAddress_renderContentAddress_witness :
  parseContentAddress (renderContentAddress (FixedOutputHash Git Examples.sha1_zero))
  = ok (FixedOutputHash Git Examples.sha1_zero)
  /\ parseContentAddress (renderContentAddress (TextHash Examples.sha256_world))
     = ok (TextHash Examples.sha256_world)
  /\ (exists msg, parseContentAddress "ipfs:f01711220" = fail (Error msg)).
Proof.
  destruct parseContentAddress_renderContentAddress as [R [U _]].
  split; [|split].
  - apply R. vm_compute. reflexivity.
  - apply R. vm_compute. reflexivity.
  - apply U; vm_compute; discriminate.
Defined.


(* ================================================================== *)
(** * Properties of PathReferences *)
(* ================================================================== *)

(** C7, as stated, fails: when the reference set itself holds [self], the
    round trip moves it into the flag. *)
Lemma setReferencesPossiblyToSelf_loses_self_in_set :
  setReferencesPossiblyToSelf Examples.selfInSet Examples.pathA
    (referencesPossiblyToSelf Examples.selfInSet Examples.pathA)
  = mkPathReferences [] true
  /\ setReferencesPossiblyToSelf Examples.selfInSet Examples.pathA
       (referencesPossiblyToSelf Examples.selfInSet Examples.pathA)
     <> Examples.selfInSet.
Proof. split; [reflexivity | discriminate]. Qed.

(** C7, amended: for every PathReferences value whose reference set does
    not hold [self], splitting the flat view
    [referencesPossiblyToSelf(self)] with [setReferencesPossiblyToSelf]
    restores the value exactly, be it assigned to the value itself or to a
    freshly constructed one. *)
Theorem setReferencesPossiblyToSelf_referencesPossiblyToSelf :
  forall (Ref : Type) (O : Ord Ref) (original : PathReferences Ref) (self : Ref),
    set_count self (references original) = false ->
    setReferencesPossiblyToSelf original self (referencesPossiblyToSelf original self)
    = original
    /\ setReferencesPossiblyToSelf (mkPathReferences [] false) self
         (referencesPossiblyToSelf original self)
       = original.
Proof.
  intros Ref O [rs flag] self A. simpl in A.
  unfold setReferencesPossiblyToSelf, referencesPossiblyToSelf; simpl.
  destruct flag.
  - rewrite set_count_insert, (set_erase_insert self rs A). split; reflexivity.
  - rewrite A, (set_erase_absent self rs A). split; reflexivity.
Qed.

Lemma setReferencesPossiblyToSelf_referencesPossiblyToSelf_witness :
  setReferencesPossiblyToSelf Examples.selfByFlag Examples.pathA
    (referencesPossiblyToSelf Examples.selfByFlag Examples.pathA)
  = Examples.selfByFlag.
Proof.
  apply (setReferencesPossiblyToSelf_referencesPossiblyToSelf
           StorePath Ord_StorePath Examples.selfByFlag Examples.pathA).
  reflexivity.
Defined.

(* ================================================================== *)
(** * Properties of path infos: fingerprints and signatures *)
(* ================================================================== *)

(** C6, as stated, fails for a path that refers to itself: the fingerprint
    lists the path among its references, which the reference set does not
    hold. *)
Lemma fingerprint_lists_self_reference :
  narHash Examples.selfReferring = Some Examples.sha256_world
  /\ narSize Examples.selfReferring = 42%N
  /\ fingerprint Examples.nixStore Examples.selfReferring
     = ok ("1;/nix/store/xxxxxxxxxxxxxxxxxxxxxxxxxxxxxxxx-foo;"
           ++ "sha256:19xqkh72crbcba7flwxyi3n293vav6d7qkzkh2v4zfyi4iia8vj8;42;"
           ++ "/nix/store/xxxxxxxxxxxxxxxxxxxxxxxxxxxxxxxx-foo")
  /\ fingerprint Examples.nixStore Examples.selfReferring
     <> ok (spec_fingerprint Examples.nixStore Examples.selfReferring Examples.sha256_world).
Proof.
  split; [reflexivity|]. split; [reflexivity|]. split.
  - vm_compute. reflexivity.
  - vm_compute. discriminate.
Qed.

(** Scenario S5 on the code: two references, no self-reference. *)
Example fingerprint_S5 :
  fingerprint Examples.nixStore Examples.twoReferences
  = ok ("1;/nix/store/xxxxxxxxxxxxxxxxxxxxxxxxxxxxxxxx-foo;"
        ++ "sha256:19xqkh72crbcba7flwxyi3n293vav6d7qkzkh2v4zfyi4iia8vj8;42;"
        ++ "/nix/store/aaaaaaaaaaaaaaaaaaaaaaaaaaaaaaaa-x,"
        ++ "/nix/store/bbbbbbbbbbbbbbbbbbbbbbbbbbbbbbbb-y").
Proof. vm_compute. reflexivity. Qed.

(** C6, amended: for every path info with a known SHA-256 narHash and a
    non-zero narSize, the fingerprint is
    ["1;" + storePath + ";sha256:" + base32(narHash) + ";" + narSize + ";"
     + joinByComma(paths)]
    where [paths] are, sorted, the full paths of the references together
    with the path itself when hasSelfReference is set. *)
Theorem fingerprint_format :
  forall (store : Store) (info_ : ValidPathInfo) (h : Hash),
    narHash info_ = Some h ->
    type h = htSHA256 ->
    narSize info_ <> 0%N ->
    exists paths : list string,
      fingerprint store info_
      = ok ("1;" ++ printStorePath store (path info_) ++ ";sha256:" ++ printHash32 h ++ ";"
            ++ decimal (narSize info_) ++ ";" ++ concatStringsSep "," paths)
      /\ Sorted string_lt paths
      /\ (forall s, In s paths <->
                    (exists r, In r (references (refs info_)) /\ s = printStorePath store r)
                    \/ (hasSelfReference (refs info_) = true
                        /\ s = printStorePath store (path info_))).
Proof.
  intros store info_ h Hh Ht Hn.
  exists (printStorePathSet store (ValidPathInfo_referencesPossiblyToSelf info_)).
  split; [|split].
  - unfold fingerprint. rewrite Hh.
    apply N.eqb_neq in Hn. rewrite Hn.
    unfold to_string. rewrite Ht. reflexivity.
  - apply set_of_list_Sorted.
  - intros s. unfold printStorePathSet, set_of_list.
    rewrite In_set_fold, in_map_iff.
    unfold ValidPathInfo_referencesPossiblyToSelf, referencesPossiblyToSelf.
    split.
    + intros [[r [E I]] | []].
      destruct (hasSelfReference (refs info_)).
      * apply In_set_insert in I as [-> | I].
        -- right. now split.
        -- left. exists r. now split.
      * left. exists r. now split.
    + intros [[r [I ->]] | [F ->]]; left.
      * exists r. split; [reflexivity|].
        destruct (hasSelfReference (refs info_)); [|exact I].
        apply In_set_insert. now right.
      * exists (path info_). split; [reflexivity|].
        rewrite F. apply In_set_insert. now left.
Qed.

Lemma fingerprint_format_witness :
  exists paths : list string,
    fingerprint Examples.nixStore Examples.selfReferring
    = ok ("1;" ++ printStorePath Examples.nixStore Examples.pathFoo ++ ";sha256:"
          ++ printHash32 Examples.sha256_world ++ ";" ++ decimal 42 ++ ";"
          ++ concatStringsSep "," paths)
    /\ In (printStorePath Examples.nixStore Examples.pathFoo) paths.
Proof.
  destruct (fingerprint_format Examples.nixStore Examples.selfReferring Examples.sha256_world)
    as [paths [E [_ M]]].
  - reflexivity.
  - reflexivity.
  - discriminate.
  - exists paths. split; [exact E|].
    apply M. right. split; reflexivity.
Defined.

Lemma isContentAddressed_with_sigs ipfsCbor store info_ sigs_ :
  isContentAddressed ipfsCbor store (with_sigs info_ sigs_)
  = isContentAddressed ipfsCbor store info_.
Proof. reflexivity. Qed.

(** C5: [isContentAddressed(info)] holds exactly when [info.ca] is set and
    [makeFixedOutputPathFromCA] of the full content address is [info.path];
    [checkSignatures] then returns [maxSigs], whatever the trusted public
    keys and whatever the signatures of the path info. *)
Theorem isContentAddressed_self_authenticating :
  forall (ipfsCbor : ContentAddress -> result string)
         (verifyDetached : string -> string -> PublicKeys -> bool)
         (store : Store) (info_ : ValidPathInfo),
    (isContentAddressed ipfsCbor store info_ = ok true
     <-> ca info_ <> None
         /\ exists fullCa,
              fullContentAddressOpt info_ = ok (Some fullCa)
              /\ makeFixedOutputPathFromCA ipfsCbor store fullCa = ok (path info_))
    /\ (isContentAddressed ipfsCbor store info_ = ok true ->
        forall (publicKeys : PublicKeys) (sigs_ : list string),
          checkSignatures ipfsCbor verifyDetached store publicKeys (with_sigs info_ sigs_)
          = ok maxSigs).
Proof.
  intros ipfsCbor verifyDetached store info_. split.
  - unfold isContentAddressed. split.
    + intros E.
      destruct (fullContentAddressOpt info_) as [[fullCa|]|e] eqn:F; cbn [bind] in E;
        try discriminate E.
      split.
      * intros N. unfold fullContentAddressOpt in F. rewrite N in F. discriminate F.
      * exists fullCa. split; [reflexivity|].
        destruct (makeFixedOutputPathFromCA ipfsCbor store fullCa) as [p|e];
          cbn [bind] in E; [|discriminate E].
        injection E as E. apply StorePath_eqb_eq in E. now subst p.
    + intros [_ [fullCa [F P]]]. rewrite F. cbn [bind]. rewrite P. cbn [bind].
      f_equal. now apply StorePath_eqb_eq.
  - intros E publicKeys sigs_. unfold checkSignatures.
    rewrite isContentAddressed_with_sigs, E. reflexivity.
Qed.

Lemma isContentAddressed_self_authenticating_witness :
  isContentAddressed Examples.noCbor Examples.nixStore Examples.tarballInfo = ok true
  /\ checkSignatures Examples.noCbor Examples.trustNothing Examples.nixStore []
       (with_sigs Examples.tarballInfo [])
     = ok maxSigs.
Proof.
  assert (E : isContentAddressed Examples.noCbor Examples.nixStore Examples.tarballInfo
              = ok true) by (vm_compute; reflexivity).
  split; [exact E|].
  apply (proj2 (isContentAddressed_self_authenticating
                  Examples.noCbor Examples.trustNothing
                  Examples.nixStore Examples.tarballInfo) E).
Defined.

(* ================================================================== *)
(** * Properties of derivations *)
(* ================================================================== *)

Lemma checkOutputs_fail (algo : string) (l : list (string * DerivationOutput)) (e : failure) :
  fold_left (fun acc i => acc ;;; checkOutput algo i) l (fail e) = fail e.
Proof. induction l as [|i l IH]; simpl; [reflexivity | exact IH]. Qed.

(** What the loop of [type()] accepts: outputs without hash, with the
    algorithm of the first output, and whose path is present exactly when
    that algorithm is not empty. *)
Lemma checkOutputs_ok (algo : string) (l : list (string * DerivationOutput)) :
  fold_left (fun acc i => acc ;;; checkOutput algo i) l (ok tt) = ok tt
  <-> forall i, In i l ->
        out_hash (snd i) = "" /\ hashAlgo (snd i) = algo
        /\ isSome (out_path (snd i)) = negb (String.eqb algo "").
Proof.
  induction l as [|i l IH]; simpl.
  - split; [intros _ i [] | reflexivity].
  - unfold checkOutput at 2.
    destruct (String.eqb (out_hash (snd i)) "") eqn:H1; cbn [negb].
    2:{ rewrite checkOutputs_fail. split; [discriminate|].
        intros A. destruct (A i (or_introl eq_refl)) as [E _].
        apply String.eqb_neq in H1. contradiction. }
    destruct (String.eqb (hashAlgo (snd i)) algo) eqn:H2; cbn [negb].
    2:{ rewrite checkOutputs_fail. split; [discriminate|].
        intros A. destruct (A i (or_introl eq_refl)) as [_ [E _]].
        apply String.eqb_neq in H2. contradiction. }
    apply String.eqb_eq in H1, H2.
    destruct (Bool.eqb (String.eqb algo "") (isSome (out_path (snd i)))) eqn:H3.
    { rewrite checkOutputs_fail. split; [discriminate|].
      intros A. destruct (A i (or_introl eq_refl)) as [_ [_ E]].
      rewrite E in H3. destruct (String.eqb algo ""); discriminate H3. }
    rewrite IH. split.
    + intros A j [<- | J]; [|now apply A].
      repeat split; try assumption.
      destruct (String.eqb algo ""), (isSome (out_path (snd i))); try reflexivity;
        discriminate H3.
    + intros A j J. apply A. now right.
Qed.

(** The derivations that [type()] classifies as regular: every output has
    an empty algorithm, an empty hash and no path. *)
Lemma Derivation_type_Regular (drv : Derivation) :
  Derivation_type drv = ok Regular
  <-> outputs drv <> []
      /\ forall i, In i (outputs drv) ->
           out_hash (snd i) = "" /\ hashAlgo (snd i) = "" /\ out_path (snd i) = None.
Proof.
  unfold Derivation_type. destruct (outputs drv) as [|[id0 o0] rest] eqn:O.
  - split; [discriminate | intros [N _]; contradiction].
  - set (l := (id0, o0) :: rest).
    destruct (Nat.eqb (List.length l) 1 && String.eqb id0 "out"
              && negb (String.eqb (out_hash o0) "") && negb (isSome (out_path o0))) eqn:F.
    + split; [discriminate|]. intros [_ A].
      destruct (A (id0, o0) (or_introl eq_refl)) as [E _]. simpl in E.
      apply andb_prop in F as [F _]. apply andb_prop in F as [_ F].
      rewrite E in F. discriminate F.
    + destruct (fold_left _ l (ok tt)) as [[]|e] eqn:C; cbn [bind].
      * pose proof (proj1 (checkOutputs_ok (hashAlgo o0) l) C) as C'. clear C.
        rename C' into C.
        destruct (String.eqb (hashAlgo o0) "") eqn:A0.
        -- apply String.eqb_eq in A0. split; [|reflexivity].
           intros _. split; [discriminate|].
           intros i I. destruct (C i I) as [E1 [E2 E3]].
           rewrite A0 in E2. simpl in E3.
           repeat split; try assumption.
           now destruct (out_path (snd i)).
        -- split; [discriminate|]. intros [_ A].
           destruct (A (id0, o0) (or_introl eq_refl)) as [_ [E _]]. simpl in E.
           rewrite E in A0. discriminate A0.
      * split; [discriminate|]. intros [_ A]. exfalso.
        assert (C' : fold_left (fun acc i => acc ;;; checkOutput (hashAlgo o0) i) l (ok tt)
                     = ok tt).
        { apply checkOutputs_ok. intros i I. destruct (A i I) as [E1 [E2 E3]].
          destruct (A (id0, o0) (or_introl eq_refl)) as [_ [E0 _]]. simpl in E0.
          rewrite E0, E1, E2, E3. repeat split. }
        rewrite C' in C. discriminate C.
Qed.

(** The derivations that [type()] classifies as fixed-output: a single
    output [out] with a hash and no path. *)
Lemma Derivation_type_CAFixed (drv : Derivation) :
  Derivation_type drv = ok CAFixed <-> fixedOutputShape drv.
Proof.
  unfold Derivation_type, fixedOutputShape. destruct (outputs drv) as [|[id0 o0] rest] eqn:O.
  - split; [discriminate | intros [o [E _]]; discriminate E].
  - set (l := (id0, o0) :: rest).
    destruct (Nat.eqb (List.length l) 1 && String.eqb id0 "out"
              && negb (String.eqb (out_hash o0) "") && negb (isSome (out_path o0))) eqn:F.
    + split; [intros _ | reflexivity].
      apply andb_prop in F as [F F4]. apply andb_prop in F as [F F3].
      apply andb_prop in F as [F1 F2].
      apply String.eqb_eq in F2. subst id0.
      destruct rest; [|discriminate F1].
      exists o0. split; [reflexivity|]. split.
      * apply negb_true_iff in F3. now apply String.eqb_neq in F3.
      * now destruct (out_path o0).
    + split.
      * destruct (fold_left _ l (ok tt)); cbn [bind]; [|discriminate].
        destruct (String.eqb (hashAlgo o0) ""); discriminate.
      * intros [o [E [H P]]]. unfold l in F. injection E as -> -> ->.
        cbn [List.length Nat.eqb String.eqb Ascii.eqb Bool.eqb andb] in F.
        apply String.eqb_neq in H. rewrite H, P in F. discriminate F.
Qed.

(** The derivations that [type()] classifies as floating: every output
    has the same non-empty algorithm, no hash, and a path. *)
Lemma Derivation_type_CAFloating (drv : Derivation) :
  Derivation_type drv = ok CAFloating
  <-> exists algo,
        algo <> "" /\ outputs drv <> []
        /\ forall i, In i (outputs drv) ->
              out_hash (snd i) = "" /\ hashAlgo (snd i) = algo
              /\ isSome (out_path (snd i)) = true.
Proof.
  unfold Derivation_type. destruct (outputs drv) as [|[id0 o0] rest] eqn:O.
  - split; [discriminate | intros [algo [_ [N _]]]; contradiction].
  - set (l := (id0, o0) :: rest).
    destruct (Nat.eqb (List.length l) 1 && String.eqb id0 "out"
              && negb (String.eqb (out_hash o0) "") && negb (isSome (out_path o0))) eqn:F.
    + split; [discriminate|]. intros [algo [_ [_ A]]].
      destruct (A (id0, o0) (or_introl eq_refl)) as [E _]. simpl in E.
      apply andb_prop in F as [F _]. apply andb_prop in F as [_ F].
      rewrite E in F. discriminate F.
    + destruct (fold_left _ l (ok tt)) as [[]|e] eqn:C; cbn [bind].
      * pose proof (proj1 (checkOutputs_ok (hashAlgo o0) l) C) as C'.
        destruct (String.eqb (hashAlgo o0) "") eqn:A0.
        -- split; [discriminate|]. intros [algo [N [_ A]]].
           destruct (A (id0, o0) (or_introl eq_refl)) as [_ [E _]]. simpl in E.
           apply String.eqb_eq in A0. congruence.
        -- split; [intros _ | reflexivity].
           exists (hashAlgo o0). split; [now apply String.eqb_neq|].
           split; [discriminate|].
           intros i I. destruct (C' i I) as [E1 [E2 E3]]. now repeat split.
      * split; [discriminate|]. intros [algo [N [_ A]]]. exfalso.
        destruct (A (id0, o0) (or_introl eq_refl)) as [_ [E0 _]]. simpl in E0.
        assert (C' : fold_left (fun acc i => acc ;;; checkOutput (hashAlgo o0) i) l (ok tt)
                     = ok tt).
        { apply checkOutputs_ok. intros i I. destruct (A i I) as [E1 [E2 E3]].
          rewrite E0, E1, E2, E3. apply String.eqb_neq in N. rewrite N.
          repeat split. }
        rewrite C' in C. discriminate C.
Qed.

(** The loop of [type()] ends normally or with an [Error]. *)
Lemma checkOutputs_Error (algo : string) (l : list (string * DerivationOutput)) :
  fold_left (fun acc i => acc ;;; checkOutput algo i) l (ok tt) = ok tt
  \/ exists msg, fold_left (fun acc i => acc ;;; checkOutput algo i) l (ok tt)
                 = fail (Error msg).
Proof.
  induction l as [|i l IH]; simpl; [now left|].
  unfold checkOutput at 2 4.
  destruct (negb (String.eqb (out_hash (snd i)) ""));
    [right; rewrite checkOutputs_fail; eexists; reflexivity|].
  destruct (negb (String.eqb (hashAlgo (snd i)) algo));
    [right; rewrite checkOutputs_fail; eexists; reflexivity|].
  destruct (Bool.eqb (String.eqb algo "") (isSome (out_path (snd i))));
    [right; rewrite checkOutputs_fail; eexists; reflexivity|].
  exact IH.
Qed.

(** The path check of [type()] is inverted: an ordinary derivation, whose
    only output has no hash and a path, is rejected with the error meant
    for a path that is blank on a non-floating derivation, and the same
    derivation without the path of its output is classified as regular. *)
Example Derivation_type_inverted_path_check :
  spec_type Examples.helloDrv = Some Regular
  /\ Derivation_type Examples.helloDrv
     = fail (Error "Path must be blank if and only if floating CA drv")
  /\ spec_type Examples.pathlessDrv = None
  /\ Derivation_type Examples.pathlessDrv = ok Regular.
Proof. repeat split. Qed.

(** C2, as stated, fails: a derivation with two outputs that both carry a
    hash meets none of the three error conditions, so that its kind would
    be CAFloating; [type()] raises an error. *)
Lemma Derivation_type_rejects_two_fixed_outputs :
  spec_type Examples.twoFixedOutputs = Some CAFloating
  /\ Derivation_type Examples.twoFixedOutputs
     = fail (Error "Non-fixed-output derivation has fixed output").
Proof. split; reflexivity. Qed.

(** C2, amended: the kind of a derivation is a function of its outputs.
    It is CAFixed exactly when there is a single output named "out" with a
    non-empty hash and an absent path.  Any other derivation that has an
    output with a non-empty hash, or two outputs with different hashAlgo (a
    mix of regular and content-addressed outputs), raises an error.  When
    another kind is returned, every output has an empty hash and the same
    hashAlgo, and the kind is Regular exactly when that hashAlgo is empty
    and CAFloating exactly when it is not.  What is required of the output
    paths is left out. *)
Theorem Derivation_type_classification :
  forall drv : Derivation,
    (Derivation_type drv = ok CAFixed <-> fixedOutputShape drv)
    /\ (~ fixedOutputShape drv ->
        (exists i, In i (outputs drv) /\ out_hash (snd i) <> "")
        \/ (exists i j, In i (outputs drv) /\ In j (outputs drv)
                        /\ hashAlgo (snd i) <> hashAlgo (snd j)) ->
        exists msg, Derivation_type drv = fail (Error msg))
    /\ (forall k, Derivation_type drv = ok k -> k <> CAFixed ->
        exists algo,
          (forall i, In i (outputs drv) ->
                     out_hash (snd i) = "" /\ hashAlgo (snd i) = algo)
          /\ (k = Regular <-> algo = "")
          /\ (k = CAFloating <-> algo <> "")).
Proof.
  intros drv. split; [apply Derivation_type_CAFixed|]. split.
  - intros NF Bad.
    assert (NT : Derivation_type drv <> ok CAFixed)
      by (intros T; apply NF; now apply Derivation_type_CAFixed).
    unfold Derivation_type in *.
    destruct (outputs drv) as [|[id0 o0] rest] eqn:O.
    { destruct Bad as [[i [[] _]] | [i [j [[] _]]]]. }
    set (l := (id0, o0) :: rest) in *.
    destruct (Nat.eqb (List.length l) 1 && String.eqb id0 "out"
              && negb (String.eqb (out_hash o0) "") && negb (isSome (out_path o0)));
      [contradiction|].
    destruct (checkOutputs_Error (hashAlgo o0) l) as [C | [msg C]]; rewrite C; cbn [bind].
    + exfalso. pose proof (proj1 (checkOutputs_ok (hashAlgo o0) l) C) as A.
      destruct Bad as [[i [I H]] | [i [j [I [J H]]]]].
      * destruct (A i I) as [E _]. contradiction.
      * destruct (A i I) as [_ [Ei _]]. destruct (A j J) as [_ [Ej _]]. congruence.
    + exists msg. reflexivity.
  - intros k T NK. destruct k; [| contradiction |].
    + apply Derivation_type_Regular in T as [_ A]. exists "". split.
      * intros i I. destruct (A i I) as [E1 [E2 _]]. now split.
      * split; [now split | split; [discriminate | intros N; now contradiction N]].
    + apply Derivation_type_CAFloating in T as [algo [N [_ A]]]. exists algo. split.
      * intros i I. destruct (A i I) as [E1 [E2 _]]. now split.
      * split; [split; [discriminate | intros E; contradiction] | now split].
Qed.

Lemma Derivation_type_classification_witness :
  (exists msg, Derivation_type Examples.twoFixedOutputs = fail (Error msg))
  /\ (exists algo,
        (forall i, In i (outputs Examples.pathlessDrv) ->
                   out_hash (snd i) = "" /\ hashAlgo (snd i) = algo)
        /\ (Regular = Regular <-> algo = "")
        /\ (Regular = CAFloating <-> algo <> "")).
Proof.
  split.
  - apply (proj1 (proj2 (Derivation_type_classification Examples.twoFixedOutputs))).
    + intros [o [E _]]. discriminate E.
    + left. exists ("doc", mkDerivationOutput None "sha256" "abc").
      split; [now left | discriminate].
  - apply (proj2 (proj2 (Derivation_type_classification Examples.pathlessDrv)) Regular).
    + reflexivity.
    + discriminate.
Defined.

(** The regular case of [hashDerivationModulo] when the memo table knows
    every input derivation: the SHA-256 of [unparse] with the [inputs2]
    made from the memo table and the [maskOutputs] of the caller; the memo
    table is left as it is. *)
Lemma hashDerivationModulo_Regular_memoized
    (fuel : nat) (store : Store) (drv : Derivation) (maskOutputs : bool) (memo : DrvHashes) :
  Derivation_type drv = ok Regular ->
  (forall i, In i (inputDrvs drv) -> map_find (fst i) memo <> None) ->
  hashDerivationModulo (S fuel) store drv maskOutputs memo
  = (inputs2 <- memoizedInputs2 memo (inputDrvs drv) ;;
     s <- unparse store drv maskOutputs (Some inputs2) ;;
     ok (DrvHash (hashString_SHA256 s)),
     memo).
Proof.
  intros T M. cbn [hashDerivationModulo]. rewrite T. unfold memoizedInputs2.
  match goal with
  | |- context [fold_left ?f (inputDrvs drv) (ok [], memo)] => set (step := f)
  end.
  match goal with
  | |- context [fold_left ?g (inputDrvs drv) (ok [])] => set (pure := g)
  end.
  assert (G : forall l acc,
            (forall i, In i l -> map_find (fst i) memo <> None) ->
            fold_left step l (acc, memo) = (fold_left pure l acc, memo)).
  { induction l as [|i l IH]; intros acc A; [reflexivity|].
    cbn [fold_left]. rewrite <- (IH (pure acc i)); [|intros j J; apply A; now right].
    f_equal. unfold step, pure.
    destruct acc as [inputs2|e]; [|reflexivity].
    destruct (map_find (fst i) memo) as [res|] eqn:F; [reflexivity|].
    exfalso. apply (A i); [now left | exact F]. }
  rewrite (G _ _ M). reflexivity.
Qed.

(** The regular case of [hashDerivationModulo] without input derivations:
    the SHA-256 of [unparse] with the empty [inputs2] and the
    [maskOutputs] of the caller. *)
Lemma hashDerivationModulo_Regular_no_inputs
    (fuel : nat) (store : Store) (drv : Derivation) (maskOutputs : bool) (memo : DrvHashes) :
  Derivation_type drv = ok Regular ->
  inputDrvs drv = [] ->
  hashDerivationModulo (S fuel) store drv maskOutputs memo
  = (s <- unparse store drv maskOutputs (Some []) ;; ok (DrvHash (hashString_SHA256 s)),
     memo).
Proof.
  intros T I. rewrite hashDerivationModulo_Regular_memoized; [|exact T|].
  - rewrite I. reflexivity.
  - rewrite I. intros i [].
Qed.

(** Scenario S4 on the code, with [maskOutputs = true]: the input
    derivation known as fixed-output enters [inputs2] under the hash of its
    output, with the single output [out]. *)
Example hashDerivationModulo_S4 :
  memoizedInputs2 Examples.fixedOutputMemo (inputDrvs Examples.consumerDrv)
  = ok [(to_string Base16 false (hashString_SHA256 "fixed:out:sha256:abc:"), ["out"])]
  /\ hashDerivationModulo 1 Examples.nixStore Examples.consumerDrv true
       Examples.fixedOutputMemo
     = (s <- unparse Examples.nixStore Examples.consumerDrv true
               (Some [(to_string Base16 false (hashString_SHA256 "fixed:out:sha256:abc:"),
                       ["out"])]) ;;
        ok (DrvHash (hashString_SHA256 s)),
        Examples.fixedOutputMemo).
Proof. split; vm_compute; reflexivity. Qed.

(** C1 on the code: for an ordinary regular derivation
    [hashDerivationModulo] returns no hash at all, because [type()] throws
    first; for the derivation that [type()] does classify as regular,
    [unparse] with [maskOutputs = false] reads the path of an output that
    has none. *)
Theorem hashDerivationModulo_regular_throws :
  (forall (fuel : nat) (store : Store) (maskOutputs : bool) (memo : DrvHashes),
     hashDerivationModulo (S fuel) store Examples.helloDrv maskOutputs memo
     = (fail (Error "Path must be blank if and only if floating CA drv"), memo))
  /\ (forall (fuel : nat) (store : Store) (memo : DrvHashes),
        hashDerivationModulo (S fuel) store Examples.pathlessDrv false memo
        = (fail (Undefined "*i.second.path"), memo)).
Proof.
  split.
  - intros fuel store maskOutputs memo. reflexivity.
  - intros fuel store memo.
    rewrite hashDerivationModulo_Regular_no_inputs; reflexivity.
Qed.

(** With [maskOutputs = true] the derivation without output path is
    hashed: the text that goes into SHA-256. *)
Example unparse_pathlessDrv_masked :
  unparse Examples.nixStore Examples.pathlessDrv true (Some [])
  = ok ("Derive([(" ++ quote ++ "out" ++ quote ++ "," ++ quote ++ quote ++ ","
        ++ quote ++ quote ++ "," ++ quote ++ quote ++ ")],[],[],"
        ++ quote ++ "x86_64-linux" ++ quote ++ "," ++ quote ++ "/bin/sh" ++ quote
        ++ ",[" ++ quote ++ "-c" ++ quote ++ "," ++ quote ++ "echo hello > $out" ++ quote
        ++ "],[(" ++ quote ++ "out" ++ quote ++ "," ++ quote ++ quote ++ ")])").
Proof. vm_compute. reflexivity. Qed.

(* ================================================================== *)
(** * Properties of copyPaths *)
(* ================================================================== *)

(** Spec, section 6: parse(print(p)) == p for a valid store path. *)
Lemma parseStorePath_printStorePath (store : Store) (p : StorePath) :
  StorePath_valid p = true -> parseStorePath store (printStorePath store p) = ok p.
Proof.
  intros V. unfold parseStorePath, printStorePath.
  rewrite <- string_app_assoc, prefix_app, string_drop_app.
  destruct p as [b]. cbn [baseName]. now rewrite V.
Qed.


Section GraphChain.
Context {S : Type}.
Variable Step : string -> S -> S -> Prop.
Variable nodes : list string.

Lemma Chain_app (vs1 vs2 : list string) (a b c : S) :
  Chain Step nodes vs1 a b -> Chain Step nodes vs2 b c ->
  Chain Step nodes (vs2 ++ vs1)%list a c.
Proof.
  intros C1 C2. induction C2 as [st | vs st st1 st2 n C IH I St]; simpl.
  - exact C1.
  - econstructor; [apply IH; exact C1 | exact I | exact St].
Qed.

Variable getEdges : S -> string -> result (list string * S).
Variable processNode : S -> string -> result S.
Hypothesis getEdges_Step : forall st n r, getEdges st n = ok r -> Step n st (snd r).
Hypothesis processNode_Step : forall st n st', processNode st n = ok st' -> Step n st st'.

Lemma collectEdges_Chain (filterNodes todo : list string) :
  forall (st : S) (r : list (string * list string) * S),
    incl todo nodes ->
    collectEdges getEdges filterNodes todo st = ok r ->
    exists vs, Chain Step nodes vs st (snd r) /\ incl todo vs.
Proof.
  induction todo as [|n todo IH]; intros st r I E; simpl in E.
  - injection E as <-. exists []. split; [constructor | apply incl_refl].
  - destruct (getEdges st n) as [r1|e] eqn:G; cbn [bind] in E; [|discriminate E].
    destruct (collectEdges getEdges filterNodes todo (snd r1)) as [r2|e] eqn:C;
      cbn [bind] in E; [|discriminate E].
    injection E as <-. cbn [snd].
    destruct (IH (snd r1) r2) as [vs [Ch Inc]].
    + intros x X. apply I. now right.
    + exact C.
    + exists (vs ++ [n])%list. split.
      * apply (Chain_app [n] vs st (snd r1) (snd r2)); [|exact Ch].
        econstructor; [constructor | apply I; now left | now apply getEdges_Step].
      * intros x [<- | X]; apply in_or_app; [right; now left | left; now apply Inc].
Qed.

Lemma processLeft_Chain (fuel : nat) (graph : list (string * list string)) :
  forall (left : list string) (st st' : S),
    incl left nodes ->
    processLeft processNode fuel graph left st = ok st' ->
    exists vs, Chain Step nodes vs st st'.
Proof.
  induction fuel as [|fuel IH]; intros left st st' I E; simpl in E.
  - destruct (isEmpty left); [|discriminate E]. injection E as <-.
    exists []. constructor.
  - destruct (find _ graph) as [n|] eqn:F.
    + apply find_some in F as [_ F]. apply andb_prop in F as [F _].
      apply set_count_In in F.
      destruct (processNode st (fst n)) as [st1|e] eqn:P; cbn [bind] in E; [|discriminate E].
      destruct (IH (set_erase (fst n) left) st1 st') as [vs Ch].
      * intros x X. apply I. now apply In_set_erase in X.
      * exact E.
      * exists (vs ++ [fst n])%list.
        apply (Chain_app [fst n] vs st st1 st'); [|exact Ch].
        econstructor; [constructor | now apply I | now apply processNode_Step].
    + destruct (isEmpty left); [|discriminate E]. injection E as <-.
      exists []. constructor.
Qed.

Lemma processGraph_Chain (st st' : S) :
  processGraph getEdges processNode nodes st = ok st' ->
  exists vs, Chain Step nodes vs st st' /\ incl nodes vs.
Proof.
  unfold processGraph. intros E.
  destruct (collectEdges getEdges nodes nodes st) as [r|e] eqn:C; cbn [bind] in E;
    [|discriminate E].
  destruct (collectEdges_Chain nodes nodes st r (incl_refl _) C) as [vs1 [C1 I1]].
  destruct (processLeft_Chain _ _ nodes (snd r) st' (incl_refl _) E) as [vs2 C2].
  exists (vs2 ++ vs1)%list. split.
  - now apply (Chain_app vs1 vs2 st (snd r) st').
  - intros x X. apply in_or_app. right. now apply I1.
Qed.
End GraphChain.

Section CopyPathsFacts.
Variable ipfsCbor : ContentAddress -> result string.
Variable narFromPath : Store -> StorePath -> result string.
Variable addToStore :
  Store -> ValidPathInfo -> string -> bool -> bool -> result (list (StorePath * ValidPathInfo)).
Variable hashModuloSink : string -> string -> Hash.
Variable keepGoing : bool.
Variables srcStore dstStore : Store.
Variables repair checkSigs : bool.

Lemma copyPaths_getEdges_records (st : CopyState) (n : string) (r : list string * CopyState) :
  copyPaths_getEdges ipfsCbor srcStore dstStore st n = ok r ->
  recordsDst ipfsCbor srcStore dstStore n st (snd r).
Proof.
  unfold copyPaths_getEdges, recordsDst, expectedDst. intros E.
  destruct (parseStorePath srcStore n) as [p|e]; cbn [bind] in E; [|discriminate E].
  destruct (queryPathInfo srcStore p) as [i|e] eqn:Qi; cbn [bind] in E; [|discriminate E].
  destruct (storePathForDst ipfsCbor srcStore dstStore p i) as [q|e] eqn:Sq; cbn [bind] in E;
    [|discriminate E].
  exists p, q. split; [reflexivity|]. split; [rewrite Qi; exact Sq|].
  destruct (isValidPath _ q) as [[|]|e]; cbn [bind] in E; try discriminate E;
    injection E as <-; reflexivity.
Qed.

Lemma copyPaths_processNode_records (st : CopyState) (n : string) (st' : CopyState) :
  copyPaths_processNode ipfsCbor narFromPath addToStore hashModuloSink keepGoing
    srcStore dstStore repair checkSigs st n = ok st' ->
  recordsDst ipfsCbor srcStore dstStore n st st'.
Proof.
  unfold copyPaths_processNode, recordsDst, expectedDst. intros E.
  destruct (parseStorePath srcStore n) as [p|e]; cbn [bind] in E; [|discriminate E].
  destruct (queryPathInfo srcStore p) as [i|e] eqn:Qi; cbn [bind] in E; [|discriminate E].
  destruct (storePathForDst ipfsCbor srcStore dstStore p i) as [q|e] eqn:Sq; cbn [bind] in E;
    [|discriminate E].
  exists p, q. split; [reflexivity|]. split; [rewrite Qi; exact Sq|].
  destruct (isValidPath _ q) as [[|]|e]; cbn [bind negb] in E; try discriminate E.
  - injection E as <-. reflexivity.
  - destruct (copyStorePath _ _ _ _ _ _ _ _) as [infos|e].
    + injection E as <-. reflexivity.
    + destruct (isNixError e); [|discriminate E].
      destruct (negb keepGoing); [discriminate E|]. injection E as <-. reflexivity.
Qed.

(** Along a chain of visits every key of the map keeps its value or, if it
    is the path of a node, has its expected path; the visited nodes have
    their expected paths. *)
Lemma Chain_pathsMap (nodes vs : list string) (st0 st : CopyState) :
  Chain (recordsDst ipfsCbor srcStore dstStore) nodes vs st0 st ->
  (forall k,
     map_find k (pathsMap st) = map_find k (pathsMap st0)
     \/ exists n q, In n nodes /\ parseStorePath srcStore n = ok k
                    /\ expectedDst ipfsCbor srcStore dstStore k = ok q
                    /\ map_find k (pathsMap st) = Some q)
  /\ (forall n k, In n vs -> parseStorePath srcStore n = ok k ->
                  exists q, expectedDst ipfsCbor srcStore dstStore k = ok q
                            /\ map_find k (pathsMap st) = Some q).
Proof.
  induction 1 as [st | vs st st1 st2 n C [IH1 IH2] I [p [q [Pn [Ex M]]]]].
  - split; [intros k; now left | intros n k []].
  - split.
    + intros k. rewrite M, map_find_insert.
      destruct (keq k p) eqn:Kp; [|apply IH1].
      apply keq_true in Kp. subst k. right. exists n, q. repeat split; assumption.
    + intros m k Im Pm. rewrite M, map_find_insert.
      destruct (keq k p) eqn:Kp.
      * apply keq_true in Kp. subst k. exists q. now split.
      * destruct Im as [<- | Im]; [|now apply (IH2 m k)].
        rewrite Pn in Pm. injection Pm as <-. rewrite keq_refl in Kp. discriminate Kp.
Qed.
End CopyPathsFacts.

Lemma isValidPath_is_ok (store : Store) (p : StorePath) :
  isValidPath store p = ok (is_ok (queryPathInfo store p)).
Proof.
  unfold isValidPath, queryPathInfo.
  destruct (map_find p (pathInfos store)) as [i|]; [|reflexivity].
  destruct (StorePath_eqb (path i) p); reflexivity.
Qed.

(** [queryValidPaths] returns the paths that are valid. *)
Lemma queryValidPaths_valid (store : Store) (paths : list StorePath) :
  exists valid,
    queryValidPaths store paths = ok valid
    /\ forall p, In p valid <-> In p paths /\ isValidPath store p = ok true.
Proof.
  unfold queryValidPaths.
  assert (G : forall acc,
            exists valid,
              fold_left
                (fun acc p =>
                   match queryPathInfo store p with
                   | ok _ => valid <- acc ;; ok (set_insert p valid)
                   | fail (InvalidPath _) => acc
                   | fail e => acc ;;; fail e
                   end) paths (ok acc) = ok valid
              /\ forall p, In p valid <->
                           (In p paths /\ isValidPath store p = ok true) \/ In p acc).
  { induction paths as [|x paths IH]; intros acc; simpl.
    - exists acc. split; [reflexivity|]. intuition.
    - pose proof (isValidPath_is_ok store x) as Vx.
      destruct (queryPathInfo store x) as [i|e] eqn:Q; cbn [bind is_ok] in *.
      + destruct (IH (set_insert x acc)) as [valid [E M]].
        exists valid. split; [exact E|].
        intros p. rewrite M, In_set_insert.
        intuition (subst; auto).
      + assert (Inv : exists msg, e = InvalidPath msg).
        { unfold queryPathInfo in Q.
          destruct (map_find x (pathInfos store)) as [i|].
          - destruct (StorePath_eqb (path i) x); [discriminate Q|].
            injection Q as <-. eexists; reflexivity.
          - injection Q as <-. eexists; reflexivity. }
        destruct Inv as [msg ->].
        destruct (IH acc) as [valid [E M]].
        exists valid. split; [exact E|].
        intros p. rewrite M.
        intuition (subst; auto; congruence). }
  destruct (G []) as [valid [E M]]. exists valid. split; [exact E|].
  intros p. rewrite M. simpl. intuition.
Qed.

Lemma In_missing (srcStore : Store) (valid storePaths : list StorePath) (s : string) :
  In s (fold_left
          (fun missing path_ =>
             if negb (set_count path_ valid)
             then set_insert (printStorePath srcStore path_) missing else missing)
          storePaths [])
  <-> exists p, In p storePaths /\ set_count p valid = false /\ s = printStorePath srcStore p.
Proof.
  assert (G : forall acc,
            In s (fold_left
                    (fun missing path_ =>
                       if negb (set_count path_ valid)
                       then set_insert (printStorePath srcStore path_) missing else missing)
                    storePaths acc)
            <-> (exists p, In p storePaths /\ set_count p valid = false
                           /\ s = printStorePath srcStore p) \/ In s acc).
  { induction storePaths as [|x l IH]; intros acc; simpl.
    - split; [now right | intros [[p [[] _]] | I]; exact I].
    - rewrite IH. destruct (set_count x valid) eqn:C; cbn [negb].
      + split.
        * intros [[p [I R]] | I]; [left; exists p; split; [now right | exact R] | now right].
        * intros [[p [[-> | I] [R1 R2]]] | I]; [congruence | left; now exists p | now right].
      + rewrite In_set_insert. split.
        * intros [[p [I R]] | [-> | I]].
          -- left. exists p. split; [now right | exact R].
          -- left. exists x. split; [now left | now split].
          -- now right.
        * intros [[p [[-> | I] [R1 R2]]] | I].
          -- right. now left.
          -- left. now exists p.
          -- right. now right. }
  rewrite G. split; [intros [E | []]; exact E | intros E; now left].
Qed.

Lemma map_find_identity (storePaths : list StorePath) (p : StorePath) :
  In p storePaths ->
  map_find p (fold_left (fun m path_ => map_insert_or_assign path_ path_ m) storePaths [])
  = Some p.
Proof.
  assert (G : forall acc : list (StorePath * StorePath),
            In p storePaths \/ map_find p acc = Some p ->
            map_find p (fold_left (fun m path_ => map_insert_or_assign path_ path_ m)
                          storePaths acc) = Some p).
  { induction storePaths as [|x l IH]; intros acc A; simpl.
    - destruct A as [[] | A]; exact A.
    - apply IH. rewrite map_find_insert.
      destruct (keq p x) eqn:E.
      + apply keq_true in E. subst x. now right.
      + destruct A as [[-> | I] | A]; [rewrite keq_refl in E; discriminate E | now left | now right]. }
  intros I. apply G. now left.
Qed.

(** C8, as stated, fails: a missing path whose path info has [ca] set and a
    reference is mapped to itself, although the destination, whose store
    directory differs, computes another path for its content address. *)
Lemma copyPaths_keeps_path_with_references :
  Examples.pkgPath = mkStorePath "z33dqpkmn5218hn0asdd8z3qmifk3ybz-pkg"
  /\ queryPathInfo Examples.sourceStore Examples.pkgPath = ok Examples.pkgInfo
  /\ ca Examples.pkgInfo = Some (FixedOutputHash Recursive Examples.sha256_world)
  /\ isValidPath Examples.otherStore Examples.pkgPath = ok false
  /\ (exists st,
        copyPaths Examples.noCbor Examples.narOfName Examples.registerInfo
          Examples.sha256Modulo false Examples.sourceStore Examples.otherStore
          [Examples.pkgPath] false false false = ok st
        /\ pathsMap st = [(Examples.pkgPath, Examples.pkgPath)])
  /\ (exists fullCa,
        fullContentAddressOpt Examples.pkgInfo = ok (Some fullCa)
        /\ makeFixedOutputPathFromCA Examples.noCbor Examples.otherStore fullCa
           = ok (mkStorePath "jqijc45lpz6j6wznrbv97b11jsfajf8d-pkg")).
Proof.
  split; [reflexivity|]. split; [vm_compute; reflexivity|].
  split; [reflexivity|]. split; [vm_compute; reflexivity|]. split.
  - eexists. split; [vm_compute; reflexivity|]. vm_compute. reflexivity.
  - eexists. split; [vm_compute; reflexivity|]. vm_compute. reflexivity.
Qed.

(** C8, amended: when [copyPaths] returns, every root that was valid at the
    destination is mapped to itself; every missing root whose source path
    info has [ca] set, no reference and no self-reference is mapped to the
    path that [makeFixedOutputPathFromCA] of the destination computes for
    its full content address; every other missing root is mapped to
    itself. *)
Theorem copyPaths_pathsMap :
  forall (ipfsCbor : ContentAddress -> result string)
         (narFromPath : Store -> StorePath -> result string)
         (addToStore : Store -> ValidPathInfo -> string -> bool -> bool
                       -> result (list (StorePath * ValidPathInfo)))
         (hashModuloSink : string -> string -> Hash)
         (keepGoing : bool)
         (srcStore dstStore : Store) (storePaths : list StorePath)
         (repair checkSigs substitute : bool) (st : CopyState),
    (forall p, In p storePaths -> StorePath_valid p = true) ->
    copyPaths ipfsCbor narFromPath addToStore hashModuloSink keepGoing
      srcStore dstStore storePaths repair checkSigs substitute = ok st ->
    forall p, In p storePaths ->
      (isValidPath dstStore p = ok true -> map_find p (pathsMap st) = Some p)
      /\ (isValidPath dstStore p = ok false ->
          exists info_,
            queryPathInfo srcStore p = ok info_
            /\ if isSome (ca info_) && isEmpty (references (refs info_))
                  && negb (hasSelfReference (refs info_))
               then exists fullCa q,
                      fullContentAddressOpt info_ = ok (Some fullCa)
                      /\ makeFixedOutputPathFromCA ipfsCbor dstStore fullCa = ok q
                      /\ map_find p (pathsMap st) = Some q
               else map_find p (pathsMap st) = Some p).
Proof.
  intros ipfsCbor narFromPath addToStore hashModuloSink keepGoing srcStore dstStore
         storePaths repair checkSigs substitute st Valid E p Ip.
  unfold copyPaths in E.
  destruct (queryValidPaths_valid dstStore storePaths) as [valid [Ev Mv]].
  rewrite Ev in E. cbn [bind] in E.
  pose proof (In_missing srcStore valid storePaths) as Mm.
  pose proof (map_find_identity storePaths) as M0.
  set (missing := fold_left _ storePaths []) in E, Mm.
  set (m0 := fold_left _ storePaths []) in E, M0.
  assert (Vp : set_count p valid = true <-> isValidPath dstStore p = ok true).
  { rewrite set_count_In, Mv. intuition. }
  destruct (isEmpty missing) eqn:Em.
  - (* nothing is missing *)
    injection E as <-. cbn [pathsMap].
    assert (Tp : isValidPath dstStore p = ok true).
    { destruct (set_count p valid) eqn:C; [now apply Vp|].
      assert (I : In (printStorePath srcStore p) missing) by (apply Mm; now exists p).
      destruct missing; [destruct I | discriminate Em]. }
    split; [intros _; now apply M0|].
    intros F. rewrite F in Tp. discriminate Tp.
  - destruct (processGraph_Chain
                (recordsDst ipfsCbor srcStore dstStore) missing _ _
                (copyPaths_getEdges_records ipfsCbor srcStore dstStore)
                (copyPaths_processNode_records ipfsCbor narFromPath addToStore hashModuloSink
                   keepGoing srcStore dstStore repair checkSigs)
                _ _ E) as [vs [Ch Inc]].
    destruct (Chain_pathsMap ipfsCbor srcStore dstStore missing vs _ _ Ch) as [A B].
    cbn [pathsMap] in A, B. split.
    + intros Tp. destruct (A p) as [Same | [n [q [In_ [Pn _]]]]].
      * rewrite Same. now apply M0.
      * exfalso. apply Mm in In_ as [p' [Ip' [Cp' ->]]].
        rewrite (parseStorePath_printStorePath srcStore p' (Valid p' Ip')) in Pn.
        injection Pn as ->. apply Vp in Tp. rewrite Tp in Cp'. discriminate Cp'.
    + intros Fp.
      assert (Cp : set_count p valid = false).
      { destruct (set_count p valid) eqn:C; [|reflexivity].
        rewrite (proj1 Vp eq_refl) in Fp. discriminate Fp. }
      destruct (B (printStorePath srcStore p) p) as [q [Ex Mq]].
      * apply Inc. apply Mm. now exists p.
      * apply parseStorePath_printStorePath. now apply Valid.
      * unfold expectedDst in Ex.
        destruct (queryPathInfo srcStore p) as [i|e]; cbn [bind] in Ex; [|discriminate Ex].
        exists i. split; [reflexivity|].
        unfold storePathForDst in Ex.
        destruct (isSome (ca i) && isEmpty (references (refs i))
                  && negb (hasSelfReference (refs i))).
        -- destruct (fullContentAddressOpt i) as [[fullCa|]|e]; cbn [bind deref] in Ex;
             try discriminate Ex.
           destruct (makeFixedOutputPathFromCA ipfsCbor dstStore fullCa) as [q'|e] eqn:Pq;
             cbn [bind] in Ex; [|discriminate Ex].
           exists fullCa, q'. split; [reflexivity|]. split; [exact Pq|].
           destruct (if String.eqb (storeDir dstStore) (storeDir srcStore)
                     then assert (StorePath_eqb q' p) "storePathForDst == storePath"
                     else ok tt); cbn [bind] in Ex; [|discriminate Ex].
           injection Ex as <-. exact Mq.
        -- injection Ex as <-. exact Mq.
Qed.

Lemma copyPaths_pathsMap_witness :
  exists st fullCa q,
    copyPaths Examples.noCbor Examples.narOfName Examples.registerInfo
      Examples.sha256Modulo false Examples.sourceStore Examples.otherStore
      [Examples.tarballPath] false false false = ok st
    /\ fullContentAddressOpt Examples.tarballInfo = ok (Some fullCa)
    /\ makeFixedOutputPathFromCA Examples.noCbor Examples.otherStore fullCa = ok q
    /\ map_find Examples.tarballPath (pathsMap st) = Some q.
Proof.
  destruct (copyPaths Examples.noCbor Examples.narOfName Examples.registerInfo
              Examples.sha256Modulo false Examples.sourceStore Examples.otherStore
              [Examples.tarballPath] false false false) as [st|e] eqn:E;
    [|vm_compute in E; discriminate E].
  assert (V : forall p, In p [Examples.tarballPath] -> StorePath_valid p = true).
  { intros p [<- | []]. vm_compute. reflexivity. }
  destruct (copyPaths_pathsMap _ _ _ _ _ _ _ _ _ _ _ st V
              E Examples.tarballPath (or_introl eq_refl)) as [_ M].
  destruct (M eq_refl) as [i [Q R]].
  assert (Qi : queryPathInfo Examples.sourceStore Examples.tarballPath
               = ok Examples.tarballInfo) by (vm_compute; reflexivity).
  rewrite Qi in Q. injection Q as <-.
  destruct R as [fullCa [q [F [P Mq]]]].
  exists st, fullCa, q. repeat split; assumption.
Defined.
